(** * crcmod: table-driven CRC engine

    A shallow embedding of [crcmod/crcmod.py] and the properties of its
    polynomial validator, bit reversal, table builder and [Crc] engine.

    Python integers are unbounded, so they are [Z]; the bit operators
    [&], [|], [^], [<<] and [>>] are [Z.land], [Z.lor], [Z.lxor],
    [Z.shiftl] and [Z.shiftr], which agree with Python on negative
    numbers as well (infinite two's complement, flooring shifts).  The
    [int]/[long] conversions of the source ([long(x)], [int(y)], the
    comparisons with [sys.maxint]) change the representation of a number
    and never its value, so they disappear in [Z]. *)

From Stdlib Require Import ZArith List Lia Bool.
From Stdlib.Strings Require Import String Ascii Byte.
From Stdlib Require DecimalString.
Import ListNotations.

Local Open Scope Z_scope.

(** ** Exceptions *)

(** The exceptions the modelled code can raise.  [_verifyPoly] raises
    [ValueError] with its own message; a shift by a negative count raises
    [ValueError] too, with Python's message. *)
Inductive exn : Type :=
| ValueError (msg : string)
| IndexError (msg : string)
| KeyError (key : Z).

Inductive result (A : Type) : Type :=
| Ok (a : A)
| Raise (e : exn).

Arguments Ok {A} a.
Arguments Raise {A} e.

Definition bind {A B : Type} (m : result A) (k : A -> result B) : result B :=
  match m with
  | Ok a => k a
  | Raise e => Raise e
  end.

Notation "x <- m ;; k" := (bind m (fun x => k))
  (at level 61, m at next level, right associativity).

(** [[f(i) for i in l]]: the elements are computed in order and the first
    exception ends the comprehension. *)
Fixpoint mapM {A B : Type} (f : A -> result B) (l : list A) : result (list B) :=
  match l with
  | [] => Ok []
  | a :: l' => b <- f a ;; bs <- mapM f l' ;; Ok (b :: bs)
  end.

(** ** Python primitives *)

(** [a << k] with a count that is not a literal. *)
Definition lshift (a k : Z) : result Z :=
  if k <? 0 then Raise (ValueError "negative shift count")
  else Ok (Z.shiftl a k).

(** [xrange(n)]: empty when [n <= 0]. *)
Definition xrange (n : Z) : list Z := map Z.of_nat (seq 0 (Z.to_nat n)).

(** ** Polynomial validator *)

Definition msg : string :=
  "The degree of the polynomial must be 8, 16, 24, 32 or 64".

(** The [for n in (8,16,24,32,64)] loop of [_verifyPoly], over the rest
    [ns] of the tuple. *)
Fixpoint _verifyPoly_for (ns : list Z) (poly : Z) : result Z :=
  match ns with
  | [] => Raise (ValueError msg)
  | n :: ns' =>
      low <- lshift 1 n ;;
      let high := low * 2 in
      if (low <=? poly) && (poly <? high) then Ok n
      else _verifyPoly_for ns' poly
  end.

Definition _verifyPoly (poly : Z) : result Z :=
  _verifyPoly_for [8; 16; 24; 32; 64] poly.

(** ** Bit reversal *)

(** The loop of [_bitrev], [k] iterations left. *)
Fixpoint _bitrev_for (k : nat) (x y : Z) : Z :=
  match k with
  | O => y
  | S k' => _bitrev_for k' (Z.shiftr x 1) (Z.lor (Z.shiftl y 1) (Z.land x 1))
  end.

Definition _bitrev (x n : Z) : result Z :=
  let y := _bitrev_for (Z.to_nat n) x 0 in
  m <- lshift 1 n ;;
  Ok y.

(** ** Per-byte step functions *)

(** One round of the loop of [_bytecrc]; [if crc & mask] is true when the
    value is not zero. *)
Definition _bytecrc_round (mask poly crc : Z) : Z :=
  if Z.land crc mask =? 0 then Z.shiftl crc 1
  else Z.lxor (Z.shiftl crc 1) poly.

Definition _bytecrc (crc poly n : Z) : result Z :=
  mask <- lshift 1 (n - 1) ;;
  let crc := Nat.iter 8 (_bytecrc_round mask poly) crc in
  m <- lshift 1 n ;;
  let mask := m - 1 in
  Ok (Z.land crc mask).

Definition _bytecrc_r_round (poly crc : Z) : Z :=
  if Z.land crc 1 =? 0 then Z.shiftr crc 1
  else Z.lxor (Z.shiftr crc 1) poly.

Definition _bytecrc_r (crc poly n : Z) : result Z :=
  let crc := Nat.iter 8 (_bytecrc_r_round poly) crc in
  m <- lshift 1 n ;;
  let mask := m - 1 in
  Ok (Z.land crc mask).

(** ** Table builder *)

Definition _mkTable (poly n : Z) : result (list Z) :=
  m <- lshift 1 n ;;
  let mask := m - 1 in
  let poly := Z.land poly mask in
  mapM (fun i => c <- lshift i (n - 8) ;; _bytecrc c poly n) (xrange 256).

Definition _mkTable_r (poly n : Z) : result (list Z) :=
  m <- lshift 1 n ;;
  let mask := m - 1 in
  poly <- _bitrev (Z.land poly mask) n ;;
  mapM (fun i => _bytecrc_r i poly n) (xrange 256).

(** ** Block update functions *)

(** A Python [str] of bytes is a [list byte]; [ord] gives the value of one
    of them. *)
Definition ord (b : byte) : Z := Z.of_N (Byte.to_N b).

(** [table[i]] for an index that is a byte value. *)
Definition getitem (table : list Z) (i : Z) : result Z :=
  if i <? 0 then Raise (IndexError "list index out of range")
  else match nth_error table (Z.to_nat i) with
       | Some t => Ok t
       | None => Raise (IndexError "list index out of range")
       end.

(** [for x in data: crc = step(crc, x)], where a step can raise. *)
Fixpoint for_data (step : Z -> byte -> result Z) (data : list byte) (crc : Z)
  : result Z :=
  match data with
  | [] => Ok crc
  | x :: data' => crc' <- step crc x ;; for_data step data' crc'
  end.

(** Modelled from the spec: the module [_crcfunpy] (the functions [_crc8],
    [_crc8r], ..., [_crc64r] that [_sizeMap] refers to) is not among the
    sources.  Section 4.5 gives the byte-at-a-time update.  Forward, for
    each byte [b]: [crc = table[b XOR (crc >> (width-8))] XOR (crc << 8)],
    masked to [width] bits after each step, and for width 24 an extra
    post-mask to 24 bits. *)
Definition blockUpdate_step (width : Z) (table : list Z) (crc : Z) (b : byte)
  : result Z :=
  t <- getitem table (Z.lxor (ord b) (Z.shiftr crc (width - 8))) ;;
  Ok (Z.land (Z.lxor t (Z.shiftl crc 8)) (Z.ones width)).

Definition blockUpdate (width : Z) (data : list byte) (crc : Z) (table : list Z)
  : result Z :=
  crc <- for_data (blockUpdate_step width table) data crc ;;
  Ok (if width =? 24 then Z.land crc 16777215 else crc).

(** Modelled from the spec: the reversed functions of [_crcfunpy], missing
    like the forward ones.  Section 4.5, reversed, for each byte [b]:
    [crc = table[b XOR (crc & 0xFF)] XOR (crc >> 8)]; for width 24 the
    value is masked to 24 bits before the loop (sections 4.7 and 9). *)
Definition blockUpdate_r_step (table : list Z) (crc : Z) (b : byte)
  : result Z :=
  t <- getitem table (Z.lxor (ord b) (Z.land crc 255)) ;;
  Ok (Z.lxor t (Z.shiftr crc 8)).

Definition blockUpdate_r (width : Z) (data : list byte) (crc : Z)
  (table : list Z) : result Z :=
  let crc := if width =? 24 then Z.land crc 16777215 else crc in
  for_data (blockUpdate_r_step table) data crc.

Module _crcfun.
Definition _crc8 := blockUpdate 8.
Definition _crc8r := blockUpdate_r 8.
Definition _crc16 := blockUpdate 16.
Definition _crc16r := blockUpdate_r 16.
Definition _crc24 := blockUpdate 24.
Definition _crc24r := blockUpdate_r 24.
Definition _crc32 := blockUpdate 32.
Definition _crc32r := blockUpdate_r 32.
Definition _crc64 := blockUpdate 64.
Definition _crc64r := blockUpdate_r 64.
End _crcfun.

(** The signature of the low-level functions: [fun(data, crc, table)]. *)
Definition crcfun_t : Type := list byte -> Z -> list Z -> result Z.

(** The dictionary [_sizeMap]; a key that is absent raises [KeyError]. *)
Definition _sizeMap (size : Z) : result (crcfun_t * crcfun_t) :=
  if size =? 8 then Ok (_crcfun._crc8, _crcfun._crc8r)
  else if size =? 16 then Ok (_crcfun._crc16, _crcfun._crc16r)
  else if size =? 24 then Ok (_crcfun._crc24, _crcfun._crc24r)
  else if size =? 32 then Ok (_crcfun._crc32, _crcfun._crc32r)
  else if size =? 64 then Ok (_crcfun._crc64, _crcfun._crc64r)
  else Raise (KeyError size).

(** ** [_mkCrcFun] *)

(** What [_mkCrcFun] returns: the tuple
    [(crcfun, size, initCrc, xorOut, tableList)].  [crcfun(data, crc)]
    takes [initCrc] for [crc] when the caller gives none. *)
Record mkCrcFun_t : Type := MkCrcFun {
  x_crcfun : list byte -> option Z -> result Z;
  x_size : Z;
  x_initCrc : Z;
  x_xorOut : Z;
  x_tableList : list Z
}.

(** The portable path ([_usingExtension] false): the table handed to the
    low-level function is the list itself. *)
Definition _mkCrcFun (poly initCrc xorOut : Z) (rev : bool) : result mkCrcFun_t :=
  size <- _verifyPoly poly ;;
  m <- lshift 1 size ;;
  let mask := m - 1 in
  let initCrc := Z.land initCrc mask in
  let xorOut := Z.land xorOut mask in
  tf <- (if rev
         then tableList <- _mkTable_r poly size ;;
              fs <- _sizeMap size ;;
              Ok (tableList, snd fs)
         else tableList <- _mkTable poly size ;;
              fs <- _sizeMap size ;;
              Ok (tableList, fst fs)) ;;
  let tableList := fst tf in
  let _fun : crcfun_t := snd tf in
  let _table := tableList in
  let crcfun := fun (data : list byte) (crc : option Z) =>
    _fun data (match crc with Some c => c | None => initCrc end) _table in
  Ok (MkCrcFun crcfun size initCrc xorOut tableList).

(** [mkCrcFun(poly, initCrc=~0L, rev=True)]. *)
Definition mkCrcFun (poly : Z) (initCrc : option Z) (rev : option bool)
  : result (list byte -> option Z -> result Z) :=
  x <- _mkCrcFun poly (match initCrc with Some c => c | None => Z.lnot 0 end)
         0 (match rev with Some r => r | None => true end) ;;
  Ok (x_crcfun x).

(** ** Text formatting *)

(** [chr(i)]. *)
Definition chr (i : Z) : result byte :=
  match (if i <? 0 then None else Byte.of_N (Z.to_N i)) with
  | Some b => Ok b
  | None => Raise (ValueError "chr() arg not in range(256)")
  end.

Definition hexdigit (d : Z) : ascii :=
  nth (Z.to_nat d) (list_ascii_of_string "0123456789ABCDEF") "0"%char.

(** The digits of [v >= 0] in base 16, most significant first. *)
Fixpoint to_hex (fuel : nat) (v : Z) (acc : string) : string :=
  match fuel with
  | O => acc
  | S fuel' =>
      let acc' := String (hexdigit (v mod 16)) acc in
      if v / 16 =? 0 then acc' else to_hex fuel' (v / 16) acc'
  end.

Definition zfill (width : nat) (s : string) : string :=
  Nat.iter (width - String.length s) (String "0"%char) s.

(** ['%02X' % v]: upper-case hexadecimal, padded with zeros to two
    characters, the sign counted in. *)
Definition format_02X (v : Z) : string :=
  let digits := to_hex (S (Z.to_nat (Z.log2 (Z.abs v)))) (Z.abs v) "" in
  if v <? 0 then String "-"%char (zfill 1 digits) else zfill 2 digits.

(** ['%d' % v]. *)
Definition format_d (v : Z) : string :=
  DecimalString.NilZero.string_of_int (Z.to_int v).

(** ** The class [Crc] *)

Module Crc.

(** The attributes of an instance.  There is no width attribute: the
    methods recover it as [8*self.digest_size]. *)
Record t : Type := Make {
  _crc : list byte -> option Z -> result Z;
  digest_size : Z;
  initCrc : Z;
  xorOut : Z;
  table : list Z;
  crcValue : Z;
  reverse : bool;
  poly : Z
}.

Definition width (self : t) : Z := 8 * digest_size self.

(** A method runs on [self] and gives back its result and [self] as the
    method left it. *)
Definition method (A : Type) : Type := t -> result (A * t).

Definition set_crcValue (self : t) (v : Z) : t :=
  Make (_crc self) (digest_size self) (initCrc self) (xorOut self)
       (table self) v (reverse self) (poly self).

(** [Crc(poly, initCrc, rev, xorOut)], with [initialize] true. *)
Definition __init__ (poly initCrc : Z) (rev : bool) (xorOut : Z) : result t :=
  x <- _mkCrcFun poly initCrc xorOut rev ;;
  Ok (Make (x_crcfun x) (x_size x / 8) (x_initCrc x) (x_xorOut x)
           (x_tableList x) (Z.lxor (x_initCrc x) (x_xorOut x)) rev poly).

Definition update (data : list byte) : method unit := fun self =>
  c <- _crc self data (Some (Z.lxor (xorOut self) (crcValue self))) ;;
  Ok (tt, set_crcValue self (Z.lxor (xorOut self) c)).

(** [new(arg)]: the method result is the new instance [n], built
    attribute by attribute from [self]. *)
Definition new (arg : option (list byte)) : method t := fun self =>
  let n := Make (_crc self) (digest_size self) (initCrc self) (xorOut self)
                (table self) (Z.lxor (initCrc self) (xorOut self))
                (reverse self) (poly self) in
  match arg with
  | Some data => r <- update data n ;; Ok (snd r, self)
  | None => Ok (n, self)
  end.

Definition copy : method t := fun self =>
  r <- new None self ;;
  let c := fst r in
  let self := snd r in
  Ok (set_crcValue c (crcValue self), self).

(** The [while n > 0] loop of [digest], with [k] iterations left. *)
Fixpoint digest_while (k : nat) (crc : Z) (lst : list byte)
  : result (list byte) :=
  match k with
  | O => Ok lst
  | S k' =>
      c <- chr (Z.land crc 255) ;;
      digest_while k' (Z.shiftr crc 8) (lst ++ [c])
  end.

Definition digest : method (list byte) := fun self =>
  let n := digest_size self in
  let crc := crcValue self in
  lst <- digest_while (Z.to_nat n) crc [] ;;
  Ok (rev lst, self).

Fixpoint hexdigest_while (k : nat) (crc : Z) (lst : list string)
  : list string :=
  match k with
  | O => lst
  | S k' =>
      hexdigest_while k' (Z.shiftr crc 8) (lst ++ [format_02X (Z.land crc 255)])
  end.

Definition hexdigest : method string := fun self =>
  let n := digest_size self in
  let crc := crcValue self in
  let lst := hexdigest_while (Z.to_nat n) crc [] in
  Ok (String.concat "" (rev lst), self).

(** The expression [crcAlgor % dataType] that [generateCode] puts in the
    loop of the generated function. *)
Definition generateCode_crcAlgor (dataType : option string) (self : t)
  : string :=
  let dataType :=
    match dataType with Some s => s | None => "UINT8"%string end in
  if digest_size self =? 1 then
    ("table[*data ^ (" ++ dataType ++ ")crc]")%string
  else if reverse self then
    ("table[*data ^ (" ++ dataType ++ ")crc] ^ (crc >> 8)")%string
  else
    let shift := 8 * (digest_size self - 1) in
    ("table[*data ^ (" ++ dataType ++ ")(crc >> " ++ format_d shift
       ++ ")] ^ (crc << 8)")%string.

End Crc.

(** ** The predefined registry *)

(** A row of [_crc_definitions_table] in [predefined.py]. *)
Record crc_definition : Type := Definition_ {
  def_name : string;
  def_identifier : string;
  def_poly : Z;
  def_reverse : bool;
  def_init : Z;
  def_xor_out : Z;
  def_check : Z
}.

Definition REVERSE : bool := true.
Definition NON_REVERSE : bool := false.

Definition _crc_definitions_table : list crc_definition :=
  [ Definition_ "crc-8" "Crc8" 0x107 NON_REVERSE 0x00 0x00 0xF4;
    Definition_ "crc-8-darc" "Crc8Darc" 0x139 REVERSE 0x00 0x00 0x15;
    Definition_ "crc-8-i-code" "Crc8ICode" 0x11D NON_REVERSE 0xFD 0x00 0x7E;
    Definition_ "crc-8-itu" "Crc8Itu" 0x107 NON_REVERSE 0x55 0x55 0xA1;
    Definition_ "crc-16" "Crc16" 0x18005 REVERSE 0x0000 0x0000 0xBB3D;
    Definition_ "crc-16-usb" "Crc16Usb" 0x18005 REVERSE 0x0000 0xFFFF 0xB4C8;
    Definition_ "x-25" "CrcX25" 0x11021 REVERSE 0x0000 0xFFFF 0x906E;
    Definition_ "xmodem" "CrcXmodem" 0x11021 NON_REVERSE 0x0000 0x0000 0x31C3;
    Definition_ "modbus" "CrcModbus" 0x18005 REVERSE 0xFFFF 0x0000 0x4B37;
    Definition_ "kermit" "CrcKermit" 0x11021 REVERSE 0x0000 0x0000 0x2189;
    Definition_ "crc-ccitt-false" "CrcCcittFalse" 0x11021 NON_REVERSE
      0xFFFF 0x0000 0x29B1;
    Definition_ "crc-aug-ccitt" "CrcAugCcitt" 0x11021 NON_REVERSE
      0x1D0F 0x0000 0xE5CC;
    Definition_ "crc-24" "Crc24" 0x1864CFB NON_REVERSE 0xB704CE 0x000000
      0x21CF02;
    Definition_ "crc-32" "Crc32" 0x104C11DB7 REVERSE 0x00000000 0xFFFFFFFF
      0xCBF43926;
    Definition_ "crc-32c" "Crc32C" 0x11EDC6F41 REVERSE 0x00000000 0xFFFFFFFF
      0xE3069283;
    Definition_ "crc-32-mpeg" "Crc32Mpeg" 0x104C11DB7 NON_REVERSE 0xFFFFFFFF
      0x00000000 0x0376E6E7;
    Definition_ "posix" "CrcPosix" 0x104C11DB7 NON_REVERSE 0xFFFFFFFF
      0xFFFFFFFF 0x765E7680;
    Definition_ "crc-64" "Crc64" 0x1000000000000001B REVERSE
      0x0000000000000000 0x0000000000000000 0x46A5A9388A5BEFFE;
    Definition_ "crc-64-jones" "Crc64Jones" 0x1AD93D23594C935A9 REVERSE
      0xFFFFFFFFFFFFFFFF 0x0000000000000000 0xCAA717168609F281;
    Definition_ "crc-3-rohc" "Crc3Rohc" 0xB REVERSE 0x7 0x0 0x6;
    Definition_ "crc-4-itu" "Crc3Itu" 0x13 REVERSE 0x00 0x00 0x07;
    Definition_ "crc-5-epc" "Crc5Epc" 0x29 NON_REVERSE 0x09 0x00 0x00;
    Definition_ "crc-5-itu" "Crc5Itu" 0x35 REVERSE 0x00 0x00 0x07;
    Definition_ "crc-5-usb" "Crc5Usb" 0x25 REVERSE 0x00 0x1F 0x19;
    Definition_ "crc-6-itu" "Crc5Itu" 0x43 REVERSE 0x00 0x00 0x06;
    Definition_ "crc-7" "Crc7" 0x89 NON_REVERSE 0x00 0x00 0x75;
    Definition_ "crc-7-rohc" "Crc7Rohc" 0xCF REVERSE 0x7F 0x00 0x53;
    Definition_ "crc-10" "Crc10" 0x633 NON_REVERSE 0x000 0x000 0x199;
    Definition_ "crc-11" "Crc11" 0xB85 NON_REVERSE 0x01A 0x000 0x5A3;
    Definition_ "crc-14-darc" "Crc14Darc" 0x4805 REVERSE 0x0000 0x0000 0x082D;
    Definition_ "crc-15" "Crc15" 0xC599 NON_REVERSE 0x0000 0x0000 0x059E;
    Definition_ "crc-40-gsm" "Crc40Gsm" 0x10004820009 NON_REVERSE
      0x0000000000 0x0000000000 0x2BE9B039B9 ].

(** ** Vocabulary of the properties *)

(** The widths the module supports. *)
Definition widths : list Z := [8; 16; 24; 32; 64].

(** [poly] is a polynomial of degree [n]. *)
Definition valid_poly (poly n : Z) : Prop := 2 ^ n <= poly < 2 ^ (n + 1).

(** The error of [_verifyPoly]. *)
Definition InvalidPolynomial : exn := ValueError msg.

(** The polynomial without its leading bit: [poly] masked to [n] bits. *)
Definition stripped (poly n : Z) : Z := poly mod 2 ^ n.

(** The reversal of the low [n] bits of [x], bit by bit: bit [i] of [x]
    moves to position [n-1-i]. *)
Definition reversed_bits (n : nat) (x : Z) : Z :=
  fold_right
    (fun i acc =>
       if Z.testbit x (Z.of_nat i) then Z.setbit acc (Z.of_nat (n - 1 - i))
       else acc)
    0 (seq 0 n).

(** One forward round in the words of the specification: shift left by 1,
    then XOR with the polynomial when the bit shifted past position [n-1]
    (now at position [n]) was 1. *)
Definition forward_round (n p c : Z) : Z :=
  let shifted := Z.shiftl c 1 in
  if Z.testbit shifted n then Z.lxor shifted p else shifted.

(** One reversed round in the words of the specification: shift right by
    1, then XOR with the polynomial when the bit shifted out was 1. *)
Definition reversed_round (p c : Z) : Z :=
  let out := Z.testbit c 0 in
  let shifted := Z.shiftr c 1 in
  if out then Z.lxor shifted p else shifted.

(** Entry [i] of the forward and of the reversed table, as specified. *)
Definition forward_entry (poly n i : Z) : Z :=
  Z.land (Nat.iter 8 (forward_round n (stripped poly n)) (Z.shiftl i (n - 8)))
         (Z.ones n).

Definition reversed_entry (poly n i : Z) : Z :=
  Z.land
    (Nat.iter 8 (reversed_round (reversed_bits (Z.to_nat n) (stripped poly n))) i)
    (Z.ones n).

(** The value of a byte string read as a big-endian number. *)
Definition big_endian (bs : list byte) : Z :=
  fold_left (fun acc b => acc * 256 + ord b) bs 0.

(** Decoding of hexadecimal text, two digits per byte. *)
Definition unhex_digit (c : ascii) : option Z :=
  let n := Z.of_nat (nat_of_ascii c) in
  if (48 <=? n) && (n <=? 57) then Some (n - 48)
  else if (65 <=? n) && (n <=? 70) then Some (n - 55)
  else if (97 <=? n) && (n <=? 102) then Some (n - 87)
  else None.

Fixpoint unhexlify (s : string) : option (list byte) :=
  match s with
  | EmptyString => Some []
  | String a (String b rest) =>
      match unhex_digit a, unhex_digit b, unhexlify rest with
      | Some hi, Some lo, Some bs =>
          match Byte.of_N (Z.to_N (16 * hi + lo)) with
          | Some x => Some (x :: bs)
          | None => None
          end
      | _, _, _ => None
      end
  | String _ EmptyString => None
  end.

(** An upper-case hexadecimal digit. *)
Definition is_upper_hex (c : ascii) : bool :=
  existsb (Ascii.eqb c) (list_ascii_of_string "0123456789ABCDEF").

(** [ceil(w/8)]. *)
Definition ceil8 (w : Z) : Z := (w + 7) / 8.

(** The engines a program can hold: built by the constructor, and then
    updated, or obtained from another one by [new] or [copy]. *)
Inductive reachable : Crc.t -> Prop :=
| reach_init poly initCrc rev xorOut e :
    Crc.__init__ poly initCrc rev xorOut = Ok e -> reachable e
| reach_update e data e' :
    reachable e -> Crc.update data e = Ok (tt, e') -> reachable e'
| reach_new e arg n e' :
    reachable e -> Crc.new arg e = Ok (n, e') -> reachable n
| reach_copy e c e' :
    reachable e -> Crc.copy e = Ok (c, e') -> reachable c.

(** A value that fits in [w] bits. *)
Definition in_range (w c : Z) : Prop := 0 <= c < 2 ^ w.

(** The low-level function an engine of width [w] and direction [rev]
    runs. *)
Definition engine_fun (w : Z) (rev : bool) : crcfun_t :=
  if rev then blockUpdate_r w else blockUpdate w.

(** What the constructor establishes and every method keeps. *)
Record wf (e : Crc.t) : Prop := {
  wf_width : In (Crc.width e) widths;
  wf_length : List.length (Crc.table e) = 256%nat;
  wf_table : Forall (fun t => 0 <= t < 2 ^ Crc.width e) (Crc.table e);
  wf_initCrc : 0 <= Crc.initCrc e < 2 ^ Crc.width e;
  wf_xorOut : 0 <= Crc.xorOut e < 2 ^ Crc.width e;
  wf_crcValue : 0 <= Crc.crcValue e < 2 ^ Crc.width e;
  wf_crc : forall data crc,
      Crc._crc e data crc =
      engine_fun (Crc.width e) (Crc.reverse e) data
        (match crc with Some c => c | None => Crc.initCrc e end)
        (Crc.table e)
}.

(** The table the constructor builds. *)
Definition table_of (poly size : Z) (rev : bool) : list Z :=
  map (if rev then reversed_entry poly size else forward_entry poly size)
      (xrange 256).

(** The engine the constructor builds for a polynomial of degree [size]. *)
Definition engine_of (poly initCrc : Z) (rev : bool) (xorOut size : Z)
  : Crc.t :=
  let init := Z.land initCrc (Z.ones size) in
  let xout := Z.land xorOut (Z.ones size) in
  let T := table_of poly size rev in
  Crc.Make
    (fun data crc =>
       engine_fun size rev data
         (match crc with Some c => c | None => init end) T)
    (size / 8) init xout T (Z.lxor init xout) rev poly.

(** The invariant of an engine: a table of 256 entries that fit in the
    width, and a current value that fits in the width. *)
Definition engine_invariant (e : Crc.t) : Prop :=
  List.length (Crc.table e) = 256%nat /\
  Forall (fun t => 0 <= t < 2 ^ Crc.width e) (Crc.table e) /\
  0 <= Crc.crcValue e < 2 ^ Crc.width e.

(** The bytes of the text "123456789". *)
Definition check_input : list byte :=
  [x31; x32; x33; x34; x35; x36; x37; x38; x39]%byte.

(** The byte of value [v], for [0 <= v < 256]. *)
Definition byte_of (v : Z) : byte :=
  match Byte.of_N (Z.to_N v) with
  | Some b => b
  | None => x00
  end.

(** The [k] low bytes of [crc], least significant first: what the loops
    of [digest] and [hexdigest] go through. *)
Fixpoint le_values (k : nat) (crc : Z) : list Z :=
  match k with
  | O => []
  | S k' => Z.land crc 255 :: le_values k' (Z.shiftr crc 8)
  end.



Definition valid_polyb (poly n : Z) : bool :=
  (2 ^ n <=? poly) && (poly <? 2 ^ (n + 1)).


(** [Crc(poly, initCrc, rev, xorOut)], then [update(data)], then
    [hexdigest()]. *)
Definition hexdigest_of (poly initCrc : Z) (rev : bool) (xorOut : Z)
  (data : list byte) : result string :=
  e <- Crc.__init__ poly initCrc rev xorOut ;;
  r <- Crc.update data e ;;
  h <- Crc.hexdigest (snd r) ;;
  Ok (fst h).

(** [e'] is [e] after zero or more calls of [update]. *)
Inductive updated (e : Crc.t) : Crc.t -> Prop :=
| updated_refl : updated e e
| updated_step e1 data e2 :
    updated e e1 -> Crc.update data e1 = Ok (tt, e2) -> updated e e2.

(** ** Code generation *)

(** The line feed. *)
Definition nl : string := String (ascii_of_nat 10) EmptyString.

Definition spaces (k : nat) : string :=
  Nat.iter k (String " "%char) EmptyString.

(** [('%%0%dX' % N) % v]: for [N >= 0] upper-case hexadecimal padded with
    zeros to [N] characters, the sign counted in; for a negative [N] the
    format reads as flags [0] and [-] with width [-N], which pads with
    spaces on the right. *)
Definition format_0NX (N v : Z) : string :=
  let digits := to_hex (S (Z.to_nat (Z.log2 (Z.abs v)))) (Z.abs v) "" in
  if N <? 0 then
    let body := if v <? 0 then String "-"%char digits else digits in
    (body ++ spaces (Z.to_nat (- N) - String.length body))%string
  else if v <? 0 then String "-"%char (zfill (Z.to_nat N - 1) digits)
  else zfill (Z.to_nat N) digits.

(** The dictionary [{1:8, 2:8, 3:4, 4:4, 8:2}] of [generateCode], indexed
    by [digest_size]. *)
Definition entries_per_row (digest_size : Z) : result Z :=
  if digest_size =? 1 then Ok 8
  else if digest_size =? 2 then Ok 8
  else if digest_size =? 3 then Ok 4
  else if digest_size =? 4 then Ok 4
  else if digest_size =? 8 then Ok 2
  else Raise (KeyError digest_size).

(** The separator that starts a row of the table in the generated code. *)
Definition row_break : string := (nl ++ "    ")%string.

(** One constant of the table: [fmt % val], where [fmt] is
    ['0x%%0%dX' % N] followed by the suffix. *)
Definition table_constant (N : Z) (suffix : string) (val : Z) : string :=
  ("0x" ++ format_0NX N val ++ suffix)%string.

(** The loop [for i, val in enumerate(self.table)] of [generateCode], at
    index [i] with the rest of the table. *)
Fixpoint generateCode_for (N : Z) (suffix : string) (n : Z) (i : Z)
  (table : list Z) (lst : list string) : list string :=
  match table with
  | [] => lst
  | val :: rest =>
      let lst := if i mod n =? 0 then lst ++ [row_break] else lst in
      generateCode_for N suffix n (i + 1) rest
        (lst ++ [table_constant N suffix val])
  end.

(** The list [lst] that [generateCode] joins into the text of the
    table. *)
Definition generateCode_lst (self : Crc.t) : result (list string) :=
  let suffix :=
    if Crc.digest_size self <=? 4 then "U,"%string else "ULL,"%string in
  n <- entries_per_row (Crc.digest_size self) ;;
  Ok (generateCode_for (2 * Crc.digest_size self) suffix n 0
        (Crc.table self) []).

(** [generateCode(functionName, out, dataType, crcType)]: [out] is the
    text written so far to the file-like object; the method result is
    that text after [out.write]. *)
Definition generateCode (functionName : string) (out : string)
  (dataType crcType : option string) : Crc.method string := fun self =>
  let dataType' :=
    match dataType with Some s => s | None => "UINT8"%string end in
  let crcType' :=
    match crcType with
    | Some s => s
    | None =>
        let size := 8 * Crc.digest_size self in
        let size := if size =? 24 then 32 else size in
        ("UINT" ++ format_d size)%string
    end in
  let crcAlgor := Crc.generateCode_crcAlgor dataType self in
  lst <- generateCode_lst self ;;
  let poly := ("polynomial: 0x" ++ format_0NX 0 (Crc.poly self))%string in
  let poly :=
    if Crc.reverse self then (poly ++ ", bit reverse algorithm")%string
    else poly in
  let mask24 := (nl ++ "    crc = crc & 0xFFFFFFU;")%string in
  let preCondition :=
    if Crc.digest_size self =? 3 then
      if Crc.reverse self then mask24 else EmptyString
    else EmptyString in
  let postCondition :=
    if Crc.digest_size self =? 3 then
      if Crc.reverse self then EmptyString else mask24
    else EmptyString in
  let text :=
    ("// Automatically generated CRC function" ++ nl
     ++ "// " ++ poly ++ nl
     ++ crcType' ++ nl
     ++ functionName ++ "(" ++ dataType' ++ " *data, int len, "
     ++ crcType' ++ " crc)" ++ nl
     ++ "{" ++ nl
     ++ "    static const " ++ crcType' ++ " table[256] = {"
     ++ String.concat "" lst ++ nl
     ++ "    };" ++ nl
     ++ "    " ++ preCondition ++ nl
     ++ "    while (len > 0)" ++ nl
     ++ "    {" ++ nl
     ++ "        crc = " ++ crcAlgor ++ ";" ++ nl
     ++ "        data++;" ++ nl
     ++ "        len--;" ++ nl
     ++ "    }" ++ postCondition ++ nl
     ++ "    return crc;" ++ nl
     ++ "}" ++ nl)%string in
  Ok ((out ++ text)%string, self).

(** The value of hexadecimal text, most significant digit first, from
    the value [acc] of the digits read so far. *)
Fixpoint hex_value_from (s : string) (acc : Z) : option Z :=
  match s with
  | EmptyString => Some acc
  | String c rest =>
      match unhex_digit c with
      | Some d => hex_value_from rest (acc * 16 + d)
      | None => None
      end
  end.

Definition hex_value (s : string) : option Z := hex_value_from s 0.



(** The values of [digest_size] for which [generateCode] knows the number
    of entries per row. *)
Definition digest_sizes : list Z := [1; 2; 3; 4; 8].

(** ** [predefined.py] *)

(** What the functions of [predefined.py] can raise: an exception that
    comes out of [crcmod], the [Exception] of the module initialisation,
    the [KeyError] of an unknown name, and the [TypeError] of a call with
    a keyword that the function does not have. *)
Inductive raised : Type :=
| FromCrcmod (e : exn)
| Exception (msg : string)
| UnknownName (msg : string)
| TypeError (msg : string).

Inductive outcome (A : Type) : Type :=
| Returns (a : A)
| Raises (e : raised).

Arguments Returns {A} a.
Arguments Raises {A} e.

(** [c.lower()] on one character, in the "C" locale: the letters [A] to
    [Z] only. *)
Definition lower_ascii (c : ascii) : ascii :=
  let n := nat_of_ascii c in
  if (Nat.leb 65 n && Nat.leb n 90)%bool then ascii_of_nat (n + 32) else c.

(** [s.lower()]. *)
Definition lower (s : string) : string :=
  string_of_list_ascii (map lower_ascii (list_ascii_of_string s)).

(** [s.replace(c, '')] for a one-character [c]. *)
Definition remove_char (c : ascii) (s : string) : string :=
  string_of_list_ascii
    (filter (fun x => negb (Ascii.eqb x c)) (list_ascii_of_string s)).

(** [s[k:]]. *)
Definition drop (k : nat) (s : string) : string :=
  string_of_list_ascii (skipn k (list_ascii_of_string s)).

Definition _simplify_name (name : string) : string :=
  let name := lower name in
  let name := remove_char "-"%char name in
  let name := remove_char " "%char name in
  if String.prefix "crc" name then drop (String.length "crc") name else name.

(** A dictionary from strings to definitions.  The code only looks keys
    up, so [d[k] = v] is modelled by putting the pair in front, where
    [get] finds it first. *)
Definition dict : Type := list (string * crc_definition).

Fixpoint dict_get (k : string) (d : dict) : option crc_definition :=
  match d with
  | [] => None
  | (k', v) :: d' => if String.eqb k k' then Some v else dict_get k d'
  end.

Definition dict_contains (k : string) (d : dict) : bool :=
  match dict_get k d with Some _ => true | None => false end.

Definition dict_set (k : string) (v : crc_definition) (d : dict) : dict :=
  (k, v) :: d.

(** The module globals [_crc_definitions_by_name],
    [_crc_definitions_by_identifier] and [_crc_definitions]. *)
Record registry : Type := Registry {
  _crc_definitions_by_name : dict;
  _crc_definitions_by_identifier : dict;
  _crc_definitions : list crc_definition
}.

Definition empty_registry : registry := Registry [] [] [].

(** The loop [for table_entry in _crc_definitions_table] that fills the
    dictionaries when the module is loaded. *)
Fixpoint registry_for (rows : list crc_definition) (r : registry)
  : outcome registry :=
  match rows with
  | [] => Returns r
  | table_entry :: rows' =>
      let crc_definition := table_entry in
      let definitions := _crc_definitions r ++ [crc_definition] in
      let name := _simplify_name (def_name table_entry) in
      if dict_contains name (_crc_definitions_by_name r) then
        Raises (Exception ("Duplicate entry for '" ++ name
                           ++ "' in CRC table")%string)
      else
        registry_for rows'
          (Registry
             (dict_set name crc_definition (_crc_definitions_by_name r))
             (dict_set (def_identifier table_entry) crc_definition
                (_crc_definitions_by_identifier r))
             definitions)
  end.

Definition _get_definition_by_name (r : registry) (crc_name : string)
  : outcome crc_definition :=
  match dict_get (_simplify_name crc_name) (_crc_definitions_by_name r) with
  | Some definition => Returns definition
  | None =>
      match dict_get crc_name (_crc_definitions_by_identifier r) with
      | Some definition => Returns definition
      | None =>
          Raises (UnknownName ("Unkown CRC name '" ++ crc_name ++ "'")%string)
      end
  end.

(** [PredefinedCrc(crc_name)], the constructor of the subclass. *)
Definition PredefinedCrc (r : registry) (crc_name : string) : outcome Crc.t :=
  match _get_definition_by_name r crc_name with
  | Raises e => Raises e
  | Returns definition =>
      match Crc.__init__ (def_poly definition) (def_init definition)
              (def_reverse definition) (def_xor_out definition) with
      | Ok self => Returns self
      | Raise e => Raises (FromCrcmod e)
      end
  end.

(** A call [f(k1=..., k2=..., ...)]: a keyword that is not a parameter of
    [f] raises [TypeError]. *)
Fixpoint bind_keywords (f : string) (params keywords : list string)
  : outcome unit :=
  match keywords with
  | [] => Returns tt
  | k :: keywords' =>
      if existsb (String.eqb k) params then bind_keywords f params keywords'
      else Raises (TypeError (f ++ "() got an unexpected keyword argument '"
                              ++ k ++ "'")%string)
  end.

(** The parameters of [mkCrcFun(poly, initCrc=~0L, rev=True)]. *)
Definition mkCrcFun_params : list string :=
  ["poly"; "initCrc"; "rev"]%string.

(** [mkPredefinedCrcFun(crc_name)], which calls
    [crcmod.mkCrcFun(poly=..., initCrc=..., rev=..., xorOut=...)]. *)
Definition mkPredefinedCrcFun (r : registry) (crc_name : string)
  : outcome (list byte -> option Z -> result Z) :=
  match _get_definition_by_name r crc_name with
  | Raises e => Raises e
  | Returns definition =>
      match bind_keywords "mkCrcFun" mkCrcFun_params
              ["poly"; "initCrc"; "rev"; "xorOut"]%string with
      | Raises e => Raises e
      | Returns _ =>
          match mkCrcFun (def_poly definition) (Some (def_init definition))
                  (Some (def_reverse definition)) with
          | Ok f => Returns f
          | Raise e => Raises (FromCrcmod e)
          end
      end
  end.

(** The key of a row in [_crc_definitions_by_name]. *)
Definition name_key (d : crc_definition) : string :=
  _simplify_name (def_name d).

(** The registry of the module, once loaded. *)
Definition loaded_registry : registry :=
  match registry_for _crc_definitions_table empty_registry with
  | Returns r => r
  | Raises _ => empty_registry
  end.

Definition is_upper (c : ascii) : bool :=
  (Nat.leb 65 (nat_of_ascii c) && Nat.leb (nat_of_ascii c) 90)%bool.

(** A character that [_simplify_name] leaves alone: no upper-case letter,
    no dash, no space. *)
Definition is_plain (c : ascii) : bool :=
  negb (is_upper c) && negb (Ascii.eqb c "-") && negb (Ascii.eqb c " ").

(** The test of [remove_char]: the character is not the one removed. *)
Definition keep (mark : ascii) (x : ascii) : bool := negb (Ascii.eqb x mark).

(** The entries that the loop adds to the two dictionaries for a row. *)
Definition name_entry (d : crc_definition) : string * crc_definition :=
  (name_key d, d).

Definition identifier_entry (d : crc_definition)
  : string * crc_definition :=
  (def_identifier d, d).

(** ['%s' % b] for a boolean. *)
Definition format_bool (b : bool) : string :=
  if b then "True"%string else "False"%string.

(** [Crc.__str__]: the five lines joined by line feeds. *)
Definition __str__ (self : Crc.t) : string :=
  let N := Crc.digest_size self * 2 in
  let lst :=
    [ ("poly = 0x" ++ format_0NX 0 (Crc.poly self))%string;
      ("reverse = " ++ format_bool (Crc.reverse self))%string;
      ("initCrc  = 0x" ++ format_0NX N (Crc.initCrc self))%string;
      ("xorOut   = 0x" ++ format_0NX N (Crc.xorOut self))%string;
      ("crcValue = 0x" ++ format_0NX N (Crc.crcValue self))%string ] in
  String.concat nl lst.

(** * Properties *)

(** ** The error monad and the primitives *)

Lemma lshift_ok (a k : Z) : 0 <= k -> lshift a k = Ok (Z.shiftl a k).
Proof.
  intros Hk. unfold lshift.
  destruct (Z.ltb_spec k 0) as [Hneg | _]; [lia | reflexivity].
Qed.

Lemma lshift_one (k : Z) : 0 <= k -> lshift 1 k = Ok (2 ^ k).
Proof.
  intros Hk. rewrite lshift_ok by assumption.
  now rewrite Z.shiftl_1_l.
Qed.

Lemma mapM_ok {A B : Type} (f : A -> result B) (g : A -> B) (l : list A) :
  (forall a, In a l -> f a = Ok (g a)) -> mapM f l = Ok (map g l).
Proof.
  induction l as [| a l IH]; intros Hf; simpl.
  - reflexivity.
  - rewrite (Hf a) by (now left). simpl.
    rewrite IH by (intros b Hb; apply Hf; now right).
    reflexivity.
Qed.

Lemma xrange_length (n : Z) : List.length (xrange n) = Z.to_nat n.
Proof. unfold xrange. now rewrite length_map, length_seq. Qed.

Lemma xrange_nth (n i : Z) :
  0 <= i < n -> nth_error (xrange n) (Z.to_nat i) = Some i.
Proof.
  intros Hi. unfold xrange.
  rewrite nth_error_map, nth_error_seq.
  destruct (Nat.ltb_spec (Z.to_nat i) (Z.to_nat n)) as [_ | Hge]; [| lia].
  simpl. f_equal. lia.
Qed.

Lemma xrange_In (n i : Z) : In i (xrange n) <-> 0 <= i < n.
Proof.
  unfold xrange. rewrite in_map_iff. split.
  - intros [k [<- Hk]]. apply in_seq in Hk. lia.
  - intros Hi. exists (Z.to_nat i). split; [lia | apply in_seq; lia].
Qed.

(** A property checked on every element of [xrange n] holds on the whole
    interval. *)
Lemma xrange_forallb (P : Z -> bool) (n : Z) :
  forallb P (xrange n) = true -> forall i, 0 <= i < n -> P i = true.
Proof.
  intros HP i Hi. rewrite forallb_forall in HP.
  apply HP, xrange_In, Hi.
Qed.

(** ** Bounds from bits *)

Lemma bits_above_bound (n y : Z) :
  0 <= n -> (forall i, n <= i -> Z.testbit y i = false) -> 0 <= y < 2 ^ n.
Proof.
  intros Hn Hhigh.
  assert (Hy : y = y mod 2 ^ n).
  { apply Z.bits_inj'. intros i Hi.
    destruct (Z.lt_ge_cases i n) as [Hlt | Hge].
    - now rewrite Z.mod_pow2_bits_low.
    - rewrite Z.mod_pow2_bits_high by lia. now apply Hhigh. }
  rewrite Hy. apply Z.mod_pos_bound. now apply Z.pow_pos_nonneg.
Qed.

Lemma bound_bits_above (n y i : Z) :
  0 <= y < 2 ^ n -> n <= i -> Z.testbit y i = false.
Proof.
  intros Hy Hi.
  destruct (Z.eq_dec y 0) as [-> | Hnz]; [apply Z.bits_0 |].
  apply Z.bits_above_log2; [lia |].
  assert (Z.log2 y < n); [| lia].
  apply Z.log2_lt_pow2; lia.
Qed.

Lemma lxor_bound (n a b : Z) :
  0 <= n -> 0 <= a < 2 ^ n -> 0 <= b < 2 ^ n -> 0 <= Z.lxor a b < 2 ^ n.
Proof.
  intros Hn Ha Hb. apply bits_above_bound; [assumption |].
  intros i Hi. rewrite Z.lxor_spec.
  now rewrite (bound_bits_above n a i), (bound_bits_above n b i).
Qed.

Lemma land_ones_bound (n a : Z) : 0 <= n -> 0 <= Z.land a (Z.ones n) < 2 ^ n.
Proof.
  intros Hn. rewrite Z.land_ones by assumption.
  apply Z.mod_pos_bound. now apply Z.pow_pos_nonneg.
Qed.

Lemma land_ones_small (n a : Z) :
  0 <= n -> 0 <= a < 2 ^ n -> Z.land a (Z.ones n) = a.
Proof.
  intros Hn Ha. rewrite Z.land_ones by assumption.
  now apply Z.mod_small.
Qed.

Lemma shiftr_bound (n k a : Z) :
  0 <= k -> 0 <= a < 2 ^ n -> 0 <= Z.shiftr a k < 2 ^ n.
Proof.
  intros Hk Ha. rewrite Z.shiftr_div_pow2 by assumption.
  assert (0 < 2 ^ k) by (now apply Z.pow_pos_nonneg).
  split.
  - apply Z.div_pos; lia.
  - apply Z.le_lt_trans with a; [| lia].
    apply Z.div_le_upper_bound; nia.
Qed.

(** ** Bit reversal *)

Lemma _bitrev_for_spec (k : nat) : forall x y i,
  0 <= i ->
  Z.testbit (_bitrev_for k x y) i =
  if i <? Z.of_nat k then Z.testbit x (Z.of_nat k - 1 - i)
  else Z.testbit y (i - Z.of_nat k).
Proof.
  induction k as [| k IH]; intros x y i Hi.
  - simpl. destruct (Z.ltb_spec i 0); [lia |]. f_equal. lia.
  - cbn [_bitrev_for]. rewrite IH by assumption.
    destruct (Z.ltb_spec i (Z.of_nat k)) as [Hlt | Hge].
    + destruct (Z.ltb_spec i (Z.of_nat (S k))); [| lia].
      rewrite Z.shiftr_spec by lia. f_equal. lia.
    + rewrite Z.lor_spec, Z.land_spec.
      destruct (Z.ltb_spec i (Z.of_nat (S k))) as [Hlt' | Hge'].
      * replace (i - Z.of_nat k) with 0 by lia.
        replace (Z.of_nat (S k) - 1 - i) with 0 by lia.
        rewrite Z.shiftl_spec by lia.
        rewrite (Z.testbit_neg_r y (0 - 1)) by lia.
        change (Z.testbit 1 0) with true.
        now rewrite andb_true_r.
      * rewrite Z.shiftl_spec by lia.
        replace (Z.testbit 1 (i - Z.of_nat k)) with false.
        -- rewrite andb_false_r, orb_false_r. f_equal. lia.
        -- symmetry. apply (bound_bits_above 1); lia.
Qed.

Lemma _bitrev_ok (x n : Z) :
  0 <= n -> _bitrev x n = Ok (_bitrev_for (Z.to_nat n) x 0).
Proof.
  intros Hn. unfold _bitrev. now rewrite lshift_one.
Qed.

Lemma _bitrev_for_bits (x n i : Z) :
  0 <= n -> 0 <= i ->
  Z.testbit (_bitrev_for (Z.to_nat n) x 0) i =
  if i <? n then Z.testbit x (n - 1 - i) else false.
Proof.
  intros Hn Hi. rewrite _bitrev_for_spec by assumption.
  rewrite Z2Nat.id by assumption.
  destruct (i <? n); [reflexivity | apply Z.bits_0].
Qed.

Lemma _bitrev_for_bound (x n : Z) :
  0 <= n -> 0 <= _bitrev_for (Z.to_nat n) x 0 < 2 ^ n.
Proof.
  intros Hn. apply bits_above_bound; [assumption |].
  intros i Hi. rewrite _bitrev_for_bits by lia.
  destruct (Z.ltb_spec i n); [lia | reflexivity].
Qed.

(** C6: for every integer [x] and every [n >= 0], [_bitrev x n] returns a
    value [y] with [0 <= y < 2^n] whose bit [i] is bit [n-1-i] of [x] for
    each [0 <= i < n]; the result depends on [x] and [n] only. *)
Theorem bitrev_reverses (x n : Z) :
  0 <= n ->
  exists y, _bitrev x n = Ok y /\ 0 <= y < 2 ^ n /\
    forall i, 0 <= i < n -> Z.testbit y i = Z.testbit x (n - 1 - i).
Proof.
  intros Hn. exists (_bitrev_for (Z.to_nat n) x 0).
  split; [now apply _bitrev_ok |].
  split; [now apply _bitrev_for_bound |].
  intros i Hi. rewrite _bitrev_for_bits by lia.
  destruct (Z.ltb_spec i n); [reflexivity | lia].
Qed.

Lemma bitrev_reverses_witness :
  0 <= 4 /\
  exists y, _bitrev 3 4 = Ok y /\ 0 <= y < 2 ^ 4 /\
    forall i, 0 <= i < 4 -> Z.testbit y i = Z.testbit 3 (4 - 1 - i).
Proof.
  split; [lia | apply (bitrev_reverses 3 4); lia].
Defined.

(** ** Per-byte steps and tables *)

Lemma land_pow2 (c k : Z) :
  0 <= k -> (Z.land c (2 ^ k) =? 0) = negb (Z.testbit c k).
Proof.
  intros Hk.
  assert (H : Z.land c (2 ^ k) = if Z.testbit c k then 2 ^ k else 0).
  { apply Z.bits_inj'. intros i Hi.
    rewrite Z.land_spec, Z.pow2_bits_eqb by assumption.
    destruct (Z.eqb_spec k i) as [-> | Hne].
    - rewrite andb_true_r. destruct (Z.testbit c i).
      + now rewrite Z.pow2_bits_true.
      + now rewrite Z.bits_0.
    - rewrite andb_false_r. destruct (Z.testbit c k).
      + now rewrite Z.pow2_bits_false.
      + now rewrite Z.bits_0. }
  rewrite H. destruct (Z.testbit c k); simpl.
  - apply Z.eqb_neq. assert (0 < 2 ^ k) by (now apply Z.pow_pos_nonneg). lia.
  - reflexivity.
Qed.

Lemma _bytecrc_round_forward (n p c : Z) :
  1 <= n -> _bytecrc_round (2 ^ (n - 1)) p c = forward_round n p c.
Proof.
  intros Hn. unfold _bytecrc_round, forward_round. cbv zeta.
  rewrite land_pow2 by lia.
  rewrite Z.shiftl_spec by lia.
  now destruct (Z.testbit c (n - 1)).
Qed.

Lemma _bytecrc_r_round_reversed (p c : Z) :
  _bytecrc_r_round p c = reversed_round p c.
Proof.
  unfold _bytecrc_r_round, reversed_round. cbv zeta.
  change 1 with (2 ^ 0) at 1. rewrite land_pow2 by lia.
  now destruct (Z.testbit c 0).
Qed.

Lemma iter_ext {A : Type} (f g : A -> A) (k : nat) (a : A) :
  (forall x, f x = g x) -> Nat.iter k f a = Nat.iter k g a.
Proof.
  intros Hfg. induction k as [| k IH]; simpl; [reflexivity |].
  now rewrite IH, Hfg.
Qed.

Lemma mask_ones (n : Z) : 2 ^ n - 1 = Z.ones n.
Proof. rewrite Z.ones_equiv. lia. Qed.

Lemma mask_stripped (poly n : Z) :
  0 <= n -> Z.land poly (2 ^ n - 1) = stripped poly n.
Proof.
  intros Hn. unfold stripped. rewrite mask_ones. now apply Z.land_ones.
Qed.

Lemma _bytecrc_ok (crc p n : Z) :
  1 <= n ->
  _bytecrc crc p n = Ok (Z.land (Nat.iter 8 (forward_round n p) crc) (Z.ones n)).
Proof.
  intros Hn. unfold _bytecrc.
  rewrite lshift_one by lia. cbn [bind].
  rewrite lshift_one by lia. cbn [bind].
  rewrite mask_ones.
  rewrite (iter_ext _ (forward_round n p)); [reflexivity |].
  intros c. now apply _bytecrc_round_forward.
Qed.

Lemma _bytecrc_r_ok (crc p n : Z) :
  0 <= n ->
  _bytecrc_r crc p n = Ok (Z.land (Nat.iter 8 (reversed_round p) crc) (Z.ones n)).
Proof.
  intros Hn. unfold _bytecrc_r.
  rewrite lshift_one by lia. cbn [bind].
  rewrite mask_ones.
  rewrite (iter_ext _ (reversed_round p)); [reflexivity |].
  intros c. apply _bytecrc_r_round_reversed.
Qed.

Lemma reversed_bits_seq (n : nat) (x : Z) (len : nat) : forall (s : nat) j,
  (s + len <= n)%nat -> 0 <= j ->
  Z.testbit
    (fold_right
       (fun i acc =>
          if Z.testbit x (Z.of_nat i) then Z.setbit acc (Z.of_nat (n - 1 - i))
          else acc)
       0 (seq s len)) j =
  (Z.of_nat n - Z.of_nat s - Z.of_nat len <=? j) && (j <? Z.of_nat n - Z.of_nat s)
  && Z.testbit x (Z.of_nat n - 1 - j).
Proof.
  induction len as [| len IH]; intros s j Hs Hj.
  - simpl. rewrite Z.bits_0.
    destruct (Z.leb_spec (Z.of_nat n - Z.of_nat s - 0) j);
      destruct (Z.ltb_spec j (Z.of_nat n - Z.of_nat s)); simpl; try reflexivity.
    lia.
  - cbn [seq fold_right].
    assert (Hrest := IH (S s) j ltac:(lia) Hj).
    destruct (Z.eq_dec j (Z.of_nat n - 1 - Z.of_nat s)) as [Heq | Hne].
    + replace (Z.of_nat n - 1 - j) with (Z.of_nat s) by lia.
      destruct (Z.leb_spec (Z.of_nat n - Z.of_nat s - Z.of_nat (S len)) j);
        [| lia].
      destruct (Z.ltb_spec j (Z.of_nat n - Z.of_nat s)); [| lia].
      simpl. destruct (Z.testbit x (Z.of_nat s)) eqn:Hbit.
      * rewrite Z.setbit_eqb by lia.
        replace (Z.of_nat (n - 1 - s)) with j by lia.
        now rewrite Z.eqb_refl.
      * rewrite Hrest.
        destruct (Z.ltb_spec j (Z.of_nat n - Z.of_nat (S s))); [lia |].
        now rewrite andb_false_r.
    + assert (Hsame :
        (Z.of_nat n - Z.of_nat s - Z.of_nat (S len) <=? j)
        && (j <? Z.of_nat n - Z.of_nat s) =
        (Z.of_nat n - Z.of_nat (S s) - Z.of_nat len <=? j)
        && (j <? Z.of_nat n - Z.of_nat (S s))).
      { destruct (Z.leb_spec (Z.of_nat n - Z.of_nat s - Z.of_nat (S len)) j);
          destruct (Z.leb_spec (Z.of_nat n - Z.of_nat (S s) - Z.of_nat len) j);
          destruct (Z.ltb_spec j (Z.of_nat n - Z.of_nat s));
          destruct (Z.ltb_spec j (Z.of_nat n - Z.of_nat (S s)));
          simpl; try reflexivity; lia. }
      rewrite Hsame, <- Hrest.
      destruct (Z.testbit x (Z.of_nat s)); [| reflexivity].
      rewrite Z.setbit_eqb by lia.
      destruct (Z.eqb_spec (Z.of_nat (n - 1 - s)) j); [lia | reflexivity].
Qed.

Lemma reversed_bits_spec (n : nat) (x j : Z) :
  0 <= j ->
  Z.testbit (reversed_bits n x) j =
  if j <? Z.of_nat n then Z.testbit x (Z.of_nat n - 1 - j) else false.
Proof.
  intros Hj. unfold reversed_bits.
  rewrite (reversed_bits_seq n x n 0 j) by lia.
  destruct (Z.leb_spec (Z.of_nat n - Z.of_nat 0 - Z.of_nat n) j); [| lia].
  replace (Z.of_nat n - Z.of_nat 0) with (Z.of_nat n) by lia.
  now destruct (j <? Z.of_nat n).
Qed.

Lemma _bitrev_for_reversed_bits (x n : Z) :
  0 <= n -> _bitrev_for (Z.to_nat n) x 0 = reversed_bits (Z.to_nat n) x.
Proof.
  intros Hn. apply Z.bits_inj'. intros j Hj.
  rewrite _bitrev_for_bits, reversed_bits_spec by assumption.
  now rewrite Z2Nat.id.
Qed.

Lemma _mkTable_ok (poly n : Z) :
  8 <= n -> _mkTable poly n = Ok (map (forward_entry poly n) (xrange 256)).
Proof.
  intros Hn. unfold _mkTable.
  rewrite lshift_one by lia. cbn [bind].
  rewrite mask_stripped by lia.
  apply mapM_ok. intros i _.
  rewrite lshift_ok by lia. cbn [bind].
  now rewrite _bytecrc_ok by lia.
Qed.

Lemma _mkTable_r_ok (poly n : Z) :
  0 <= n -> _mkTable_r poly n = Ok (map (reversed_entry poly n) (xrange 256)).
Proof.
  intros Hn. unfold _mkTable_r.
  rewrite lshift_one by lia. cbn [bind].
  rewrite mask_stripped by lia.
  rewrite _bitrev_ok by lia. cbn [bind].
  apply mapM_ok. intros i _.
  rewrite _bytecrc_r_ok by lia.
  unfold reversed_entry. now rewrite _bitrev_for_reversed_bits.
Qed.

Lemma widths_ge_8 (n : Z) : In n widths -> 8 <= n.
Proof. unfold widths. simpl. intuition lia. Qed.

(** C1: for a polynomial [poly] of degree [n] in {8,16,24,32,64}, the
    forward table is the 256-entry list whose entry [i] is 8 rounds of
    'shift left, XOR with the stripped polynomial when the bit shifted
    past position [n-1] was 1' from [i << (n-8)], masked to [n] bits; the
    reversed table's entry [i] is 8 rounds of 'shift right, XOR with the
    bit-reversed stripped polynomial when the bit shifted out was 1' from
    [i], masked to [n] bits. *)
Theorem tables_as_specified (poly n : Z) :
  In n widths -> valid_poly poly n ->
  (exists T, _mkTable poly n = Ok T /\ List.length T = 256%nat /\
     forall i, 0 <= i < 256 ->
       nth_error T (Z.to_nat i) = Some (forward_entry poly n i)) /\
  (exists T, _mkTable_r poly n = Ok T /\ List.length T = 256%nat /\
     forall i, 0 <= i < 256 ->
       nth_error T (Z.to_nat i) = Some (reversed_entry poly n i)).
Proof.
  intros Hn _. apply widths_ge_8 in Hn. split.
  - exists (map (forward_entry poly n) (xrange 256)).
    split; [now apply _mkTable_ok |].
    split; [now rewrite length_map, xrange_length |].
    intros i Hi. now rewrite nth_error_map, xrange_nth.
  - exists (map (reversed_entry poly n) (xrange 256)).
    split; [apply _mkTable_r_ok; lia |].
    split; [now rewrite length_map, xrange_length |].
    intros i Hi. now rewrite nth_error_map, xrange_nth.
Qed.

Lemma tables_as_specified_witness :
  In 8 widths /\ valid_poly 263 8 /\
  (exists T, _mkTable 263 8 = Ok T /\ List.length T = 256%nat /\
     forall i, 0 <= i < 256 ->
       nth_error T (Z.to_nat i) = Some (forward_entry 263 8 i)) /\
  (exists T, _mkTable_r 263 8 = Ok T /\ List.length T = 256%nat /\
     forall i, 0 <= i < 256 ->
       nth_error T (Z.to_nat i) = Some (reversed_entry 263 8 i)).
Proof.
  assert (Hw : In 8 widths) by (simpl; auto).
  assert (Hp : valid_poly 263 8) by (unfold valid_poly; simpl; lia).
  split; [exact Hw |]. split; [exact Hp |].
  exact (tables_as_specified 263 8 Hw Hp).
Defined.

Lemma iter_fixed {A : Type} (f : A -> A) (k : nat) (a : A) :
  f a = a -> Nat.iter k f a = a.
Proof.
  intros Hf. induction k as [| k IH]; simpl; [reflexivity |].
  now rewrite IH.
Qed.

Lemma forward_entry_0 (poly n : Z) : forward_entry poly n 0 = 0.
Proof.
  unfold forward_entry. rewrite Z.shiftl_0_l.
  rewrite iter_fixed; [apply Z.land_0_l |].
  unfold forward_round. cbv zeta.
  now rewrite Z.shiftl_0_l, Z.bits_0.
Qed.

Lemma reversed_entry_0 (poly n : Z) : reversed_entry poly n 0 = 0.
Proof.
  unfold reversed_entry.
  rewrite iter_fixed; [apply Z.land_0_l |].
  unfold reversed_round. cbv zeta.
  now rewrite Z.shiftr_0_l, Z.bits_0.
Qed.

(** C10: for a polynomial [poly] of degree [w] in {8,16,24,32,64}, entry 0
    of the lookup table is 0, in the forward and in the reversed
    construction. *)
Theorem table_entry_zero (poly w : Z) :
  In w widths -> valid_poly poly w ->
  (exists T, _mkTable poly w = Ok T /\ nth_error T 0 = Some 0) /\
  (exists T, _mkTable_r poly w = Ok T /\ nth_error T 0 = Some 0).
Proof.
  intros Hw _. apply widths_ge_8 in Hw. split.
  - exists (map (forward_entry poly w) (xrange 256)).
    split; [now apply _mkTable_ok |].
    change 0%nat with (Z.to_nat 0).
    rewrite nth_error_map, xrange_nth by lia.
    simpl. now rewrite forward_entry_0.
  - exists (map (reversed_entry poly w) (xrange 256)).
    split; [apply _mkTable_r_ok; lia |].
    change 0%nat with (Z.to_nat 0).
    rewrite nth_error_map, xrange_nth by lia.
    simpl. now rewrite reversed_entry_0.
Qed.

Lemma table_entry_zero_witness :
  In 16 widths /\ valid_poly 98309 16 /\
  (exists T, _mkTable 98309 16 = Ok T /\ nth_error T 0 = Some 0) /\
  (exists T, _mkTable_r 98309 16 = Ok T /\ nth_error T 0 = Some 0).
Proof.
  assert (Hw : In 16 widths) by (simpl; auto).
  assert (Hp : valid_poly 98309 16) by (unfold valid_poly; simpl; lia).
  split; [exact Hw |]. split; [exact Hp |].
  exact (table_entry_zero 98309 16 Hw Hp).
Defined.

(** ** Polynomial validator *)

Lemma _verifyPoly_for_step (n : Z) (ns : list Z) (poly : Z) :
  0 <= n ->
  _verifyPoly_for (n :: ns) poly =
  if (2 ^ n <=? poly) && (poly <? 2 ^ (n + 1)) then Ok n
  else _verifyPoly_for ns poly.
Proof.
  intros Hn. cbn [_verifyPoly_for].
  rewrite lshift_one by assumption. cbn [bind].
  replace (2 ^ n * 2) with (2 ^ (n + 1)); [reflexivity |].
  rewrite Z.pow_add_r by lia. lia.
Qed.

Lemma _verifyPoly_for_spec (ns : list Z) (poly : Z) :
  Forall (fun n => 0 <= n) ns ->
  match _verifyPoly_for ns poly with
  | Ok n => In n ns /\ valid_poly poly n
  | Raise e =>
      e = InvalidPolynomial /\ forall w, In w ns -> ~ valid_poly poly w
  end.
Proof.
  induction 1 as [| n ns Hn Hns IH].
  - simpl. split; [reflexivity | intros w []].
  - rewrite _verifyPoly_for_step by assumption.
    destruct (Z.leb_spec (2 ^ n) poly) as [Hlow | Hlow];
      destruct (Z.ltb_spec poly (2 ^ (n + 1))) as [Hhigh | Hhigh]; simpl.
    1: { split; [now left | split; assumption]. }
    all: destruct (_verifyPoly_for ns poly) as [m | e];
      [ destruct IH as [Hin Hv]; split; [now right | exact Hv]
      | destruct IH as [He Hnone]; split; [exact He |];
        intros w [<- | Hw] [Hl Hh]; [lia | exact (Hnone w Hw (conj Hl Hh))] ].
Qed.

Lemma widths_nonneg : Forall (fun n => 0 <= n) widths.
Proof. unfold widths. repeat constructor; lia. Qed.

Lemma _verifyPoly_spec (poly : Z) :
  match _verifyPoly poly with
  | Ok n => In n widths /\ valid_poly poly n
  | Raise e =>
      e = InvalidPolynomial /\ forall w, In w widths -> ~ valid_poly poly w
  end.
Proof. apply (_verifyPoly_for_spec widths poly widths_nonneg). Qed.

Lemma valid_poly_unique (poly w w' : Z) :
  0 <= w -> 0 <= w' -> valid_poly poly w -> valid_poly poly w' -> w = w'.
Proof.
  unfold valid_poly. intros Hw Hw' [Hl Hh] [Hl' Hh'].
  destruct (Z.lt_trichotomy w w') as [Hlt | [Heq | Hgt]]; [| exact Heq |].
  - assert (2 ^ (w + 1) <= 2 ^ w') by (apply Z.pow_le_mono_r; lia). lia.
  - assert (2 ^ (w' + 1) <= 2 ^ w) by (apply Z.pow_le_mono_r; lia). lia.
Qed.

(** ** Construction *)

Lemma _sizeMap_ok (size : Z) :
  In size widths -> _sizeMap size = Ok (blockUpdate size, blockUpdate_r size).
Proof.
  unfold widths. simpl.
  intros [<- | [<- | [<- | [<- | [<- | []]]]]]; reflexivity.
Qed.

Lemma __init___ok (poly initCrc : Z) (rev : bool) (xorOut size : Z) :
  _verifyPoly poly = Ok size ->
  Crc.__init__ poly initCrc rev xorOut =
  Ok (engine_of poly initCrc rev xorOut size).
Proof.
  intros Hsize.
  assert (Hw : In size widths).
  { pose proof (_verifyPoly_spec poly) as H. rewrite Hsize in H. apply H. }
  pose proof (widths_ge_8 size Hw) as Hge.
  unfold Crc.__init__, _mkCrcFun. rewrite Hsize. cbn [bind].
  rewrite lshift_one by lia. cbn [bind]. rewrite mask_ones.
  destruct rev.
  - rewrite _mkTable_r_ok by lia. cbn [bind].
    rewrite _sizeMap_ok by assumption. reflexivity.
  - rewrite _mkTable_ok by lia. cbn [bind].
    rewrite _sizeMap_ok by assumption. reflexivity.
Qed.

Lemma __init___raises (poly initCrc : Z) (rev : bool) (xorOut : Z) (e : exn) :
  _verifyPoly poly = Raise e ->
  Crc.__init__ poly initCrc rev xorOut = Raise e.
Proof.
  intros He. unfold Crc.__init__, _mkCrcFun. now rewrite He.
Qed.

Lemma width_engine_of (poly initCrc : Z) (rev : bool) (xorOut size : Z) :
  In size widths -> Crc.width (engine_of poly initCrc rev xorOut size) = size.
Proof.
  unfold widths, Crc.width. simpl.
  intros [<- | [<- | [<- | [<- | [<- | []]]]]]; reflexivity.
Qed.

(** C2: constructing an engine raises the error of [_verifyPoly] exactly
    when [2^w <= poly < 2^(w+1)] holds for no [w] in {8,16,24,32,64},
    whatever [initCrc], [rev] and [xorOut] are; when construction
    succeeds, the width of the engine is the unique such [w]. *)
Theorem construction_error_iff (poly initCrc : Z) (rev : bool) (xorOut : Z) :
  (Crc.__init__ poly initCrc rev xorOut = Raise InvalidPolynomial <->
   forall w, In w widths -> ~ valid_poly poly w) /\
  (forall e, Crc.__init__ poly initCrc rev xorOut = Ok e ->
     In (Crc.width e) widths /\ valid_poly poly (Crc.width e) /\
     forall w, In w widths -> valid_poly poly w -> w = Crc.width e) /\
  ((exists e, Crc.__init__ poly initCrc rev xorOut = Ok e) \/
   Crc.__init__ poly initCrc rev xorOut = Raise InvalidPolynomial).
Proof.
  pose proof (_verifyPoly_spec poly) as Hspec.
  destruct (_verifyPoly poly) as [size | ex] eqn:Hv.
  - destruct Hspec as [Hin Hvalid].
    rewrite (__init___ok poly initCrc rev xorOut size Hv).
    split; [| split].
    + split; [discriminate |].
      intros Hnone. exfalso. exact (Hnone size Hin Hvalid).
    + intros e [= <-]. rewrite width_engine_of by assumption.
      split; [assumption |]. split; [assumption |].
      intros w Hw Hwv.
      apply (valid_poly_unique poly w size); try assumption.
      * pose proof (widths_ge_8 w Hw). lia.
      * pose proof (widths_ge_8 size Hin). lia.
    + left. eexists. reflexivity.
  - destruct Hspec as [-> Hnone].
    rewrite (__init___raises poly initCrc rev xorOut _ Hv).
    split; [| split].
    + split; [intros _; exact Hnone | reflexivity].
    + discriminate.
    + now right.
Qed.

(** ** Block update *)

Lemma ord_bound (b : byte) : 0 <= ord b < 256.
Proof.
  unfold ord. pose proof (Byte.to_N_bounded b) as H.
  split; [apply N2Z.is_nonneg |]. lia.
Qed.

Lemma getitem_ok (T : list Z) (i : Z) :
  List.length T = 256%nat -> 0 <= i < 256 ->
  exists t, getitem T i = Ok t /\ In t T.
Proof.
  intros Hlen Hi. unfold getitem.
  destruct (Z.ltb_spec i 0) as [Hneg | _]; [lia |].
  destruct (nth_error T (Z.to_nat i)) as [t |] eqn:Hnth.
  - exists t. split; [reflexivity |]. eapply nth_error_In, Hnth.
  - apply nth_error_None in Hnth. lia.
Qed.

Lemma for_data_app (step : Z -> byte -> result Z) (a b : list byte) :
  forall crc,
  for_data step (a ++ b) crc = (c <- for_data step a crc ;; for_data step b c).
Proof.
  induction a as [| x a IH]; intros crc; simpl; [reflexivity |].
  destruct (step crc x) as [c | e]; simpl; [apply IH | reflexivity].
Qed.

Lemma for_data_inv (P : Z -> Prop) (step : Z -> byte -> result Z) :
  (forall c b, P c -> exists c', step c b = Ok c' /\ P c') ->
  forall data crc, P crc ->
  exists c', for_data step data crc = Ok c' /\ P c'.
Proof.
  intros Hstep data.
  induction data as [| x data IH]; intros crc Hcrc; simpl.
  - now exists crc.
  - destruct (Hstep crc x Hcrc) as [c [-> Hc]]. simpl. now apply IH.
Qed.

Lemma mask24_small (w c : Z) :
  0 <= c < 2 ^ w -> (if w =? 24 then Z.land c 16777215 else c) = c.
Proof.
  intros Hc. destruct (Z.eqb_spec w 24) as [-> | _]; [| reflexivity].
  change 16777215 with (Z.ones 24). apply land_ones_small; [lia | exact Hc].
Qed.

Section BlockUpdate.

Variable w : Z.
Variable T : list Z.
Hypothesis w_supported : In w widths.
Hypothesis T_length : List.length T = 256%nat.
Hypothesis T_range : Forall (fun t => 0 <= t < 2 ^ w) T.

Lemma blockUpdate_step_ok (c : Z) (b : byte) :
  in_range w c -> exists c', blockUpdate_step w T c b = Ok c' /\ in_range w c'.
Proof.
  unfold in_range. intros Hc.
  pose proof (widths_ge_8 w w_supported) as Hw.
  unfold blockUpdate_step.
  assert (Hhigh : 0 <= Z.shiftr c (w - 8) < 2 ^ 8).
  { rewrite Z.shiftr_div_pow2 by lia.
    assert (0 < 2 ^ (w - 8)) by (apply Z.pow_pos_nonneg; lia).
    split; [apply Z.div_pos; lia |].
    apply Z.div_lt_upper_bound; [lia |].
    rewrite <- Z.pow_add_r by lia.
    replace (w - 8 + 8) with w by lia. lia. }
  assert (Hidx : 0 <= Z.lxor (ord b) (Z.shiftr c (w - 8)) < 256).
  { change 256 with (2 ^ 8).
    apply lxor_bound; [lia | apply ord_bound | exact Hhigh]. }
  destruct (getitem_ok T _ T_length Hidx) as [t [-> _]]. cbn [bind].
  eexists. split; [reflexivity |]. apply land_ones_bound. lia.
Qed.

Lemma blockUpdate_r_step_ok (c : Z) (b : byte) :
  in_range w c -> exists c', blockUpdate_r_step T c b = Ok c' /\ in_range w c'.
Proof.
  unfold in_range. intros Hc.
  pose proof (widths_ge_8 w w_supported) as Hw.
  unfold blockUpdate_r_step.
  assert (Hidx : 0 <= Z.lxor (ord b) (Z.land c 255) < 256).
  { change 256 with (2 ^ 8).
    apply lxor_bound; [lia | apply ord_bound |].
    change 255 with (Z.ones 8). apply land_ones_bound. lia. }
  destruct (getitem_ok T _ T_length Hidx) as [t [-> Ht]]. cbn [bind].
  eexists. split; [reflexivity |].
  rewrite Forall_forall in T_range.
  apply lxor_bound; [lia | now apply T_range |].
  apply shiftr_bound; [lia | exact Hc].
Qed.

(** For a value in range the masks of the 24-bit functions change
    nothing: the function is the loop over the bytes. *)
Lemma engine_fun_loop (rev : bool) (data : list byte) (c : Z) :
  in_range w c ->
  exists c', in_range w c' /\
    for_data (if rev then blockUpdate_r_step T else blockUpdate_step w T)
             data c = Ok c' /\
    engine_fun w rev data c T = Ok c'.
Proof.
  intros Hc. destruct rev; unfold engine_fun.
  - destruct (for_data_inv (in_range w) (blockUpdate_r_step T)
                blockUpdate_r_step_ok data c Hc) as [c' [Hrun Hc']].
    exists c'. split; [exact Hc' |]. split; [exact Hrun |].
    unfold blockUpdate_r. now rewrite mask24_small.
  - destruct (for_data_inv (in_range w) (blockUpdate_step w T)
                blockUpdate_step_ok data c Hc) as [c' [Hrun Hc']].
    exists c'. split; [exact Hc' |]. split; [exact Hrun |].
    unfold blockUpdate. rewrite Hrun. cbn [bind].
    now rewrite mask24_small.
Qed.

Lemma engine_fun_ok (rev : bool) (data : list byte) (c : Z) :
  in_range w c ->
  exists c', engine_fun w rev data c T = Ok c' /\ in_range w c'.
Proof.
  intros Hc.
  destruct (engine_fun_loop rev data c Hc) as [c' [Hc' [_ Hrun]]].
  now exists c'.
Qed.

(** The block update of a concatenation is the block update of the second
    part, started from the result of the first. *)
Lemma engine_fun_app (rev : bool) (a b : list byte) (c : Z) :
  in_range w c ->
  engine_fun w rev (a ++ b) c T =
  (c' <- engine_fun w rev a c T ;; engine_fun w rev b c' T).
Proof.
  intros Hc.
  destruct (engine_fun_loop rev a c Hc) as [c1 [Hc1 [Hloop1 Hrun1]]].
  destruct (engine_fun_loop rev b c1 Hc1) as [c2 [Hc2 [Hloop2 Hrun2]]].
  destruct (engine_fun_loop rev (a ++ b) c Hc) as [c3 [Hc3 [Hloop3 Hrun3]]].
  rewrite Hrun3, Hrun1. cbn [bind]. rewrite Hrun2.
  rewrite for_data_app, Hloop1 in Hloop3. cbn [bind] in Hloop3.
  congruence.
Qed.

End BlockUpdate.

(** ** The engine invariant *)

Lemma table_of_length (poly size : Z) (rev : bool) :
  List.length (table_of poly size rev) = 256%nat.
Proof. unfold table_of. now rewrite length_map, xrange_length. Qed.

Lemma table_of_range (poly size : Z) (rev : bool) :
  0 <= size -> Forall (fun t => 0 <= t < 2 ^ size) (table_of poly size rev).
Proof.
  intros Hsize. apply Forall_forall. intros t Ht.
  unfold table_of in Ht. apply in_map_iff in Ht. destruct Ht as [i [<- _]].
  destruct rev; apply land_ones_bound; assumption.
Qed.

Lemma wf_engine_of (poly initCrc : Z) (rev : bool) (xorOut size : Z) :
  In size widths -> wf (engine_of poly initCrc rev xorOut size).
Proof.
  intros Hsize.
  pose proof (widths_ge_8 size Hsize) as Hge.
  pose proof (width_engine_of poly initCrc rev xorOut size Hsize) as Hwidth.
  constructor; rewrite ?Hwidth.
  - exact Hsize.
  - apply table_of_length.
  - apply table_of_range. lia.
  - apply land_ones_bound. lia.
  - apply land_ones_bound. lia.
  - apply lxor_bound; [lia | apply land_ones_bound; lia ..].
  - reflexivity.
Qed.

Lemma wf___init__ (poly initCrc : Z) (rev : bool) (xorOut : Z) (e : Crc.t) :
  Crc.__init__ poly initCrc rev xorOut = Ok e -> wf e.
Proof.
  intros Hinit.
  pose proof (_verifyPoly_spec poly) as Hspec.
  destruct (_verifyPoly poly) as [size | ex] eqn:Hv.
  - rewrite (__init___ok poly initCrc rev xorOut size Hv) in Hinit.
    injection Hinit as <-. apply wf_engine_of, Hspec.
  - rewrite (__init___raises poly initCrc rev xorOut ex Hv) in Hinit.
    discriminate.
Qed.

Lemma wf_set_crcValue (e : Crc.t) (v : Z) :
  wf e -> in_range (Crc.width e) v -> wf (Crc.set_crcValue e v).
Proof.
  intros [Hw Hlen Htab Hinit Hxor Hval Hcrc] Hv.
  constructor; try assumption.
Qed.

(** [update] on a well-formed engine: the low-level function succeeds and
    only [crcValue] changes. *)
Lemma update_ok (e : Crc.t) (data : list byte) :
  wf e ->
  exists c,
    engine_fun (Crc.width e) (Crc.reverse e) data
      (Z.lxor (Crc.xorOut e) (Crc.crcValue e)) (Crc.table e) = Ok c /\
    in_range (Crc.width e) c /\
    Crc.update data e = Ok (tt, Crc.set_crcValue e (Z.lxor (Crc.xorOut e) c)).
Proof.
  intros He. pose proof He as [Hw Hlen Htab Hinit Hxor Hval Hcrc].
  pose proof (widths_ge_8 _ Hw) as Hge.
  assert (Hstart : in_range (Crc.width e)
                     (Z.lxor (Crc.xorOut e) (Crc.crcValue e))).
  { apply lxor_bound; [lia | assumption ..]. }
  destruct (engine_fun_ok (Crc.width e) (Crc.table e) Hw Hlen Htab
              (Crc.reverse e) data _ Hstart) as [c [Hrun Hc]].
  exists c. split; [exact Hrun |]. split; [exact Hc |].
  unfold Crc.update. rewrite Hcrc, Hrun. reflexivity.
Qed.

Lemma wf_update (e e' : Crc.t) (data : list byte) :
  wf e -> Crc.update data e = Ok (tt, e') -> wf e'.
Proof.
  intros He Hupd.
  destruct (update_ok e data He) as [c [_ [Hc Hrun]]].
  rewrite Hrun in Hupd. injection Hupd as <-.
  apply wf_set_crcValue; [exact He |].
  pose proof (wf_width e He) as Hw. pose proof (widths_ge_8 _ Hw).
  apply lxor_bound; [lia | apply (wf_xorOut e He) | exact Hc].
Qed.

Lemma new_None (e : Crc.t) :
  Crc.new None e =
  Ok (Crc.set_crcValue e (Z.lxor (Crc.initCrc e) (Crc.xorOut e)), e).
Proof. reflexivity. Qed.

Lemma wf_reset (e : Crc.t) :
  wf e -> wf (Crc.set_crcValue e (Z.lxor (Crc.initCrc e) (Crc.xorOut e))).
Proof.
  intros He. apply wf_set_crcValue; [exact He |].
  pose proof (wf_width e He) as Hw. pose proof (widths_ge_8 _ Hw).
  apply lxor_bound; [lia | apply (wf_initCrc e He) | apply (wf_xorOut e He)].
Qed.

Lemma wf_new (e n e' : Crc.t) (arg : option (list byte)) :
  wf e -> Crc.new arg e = Ok (n, e') -> wf n.
Proof.
  intros He Hnew. destruct arg as [data |].
  - unfold Crc.new in Hnew.
    change (Crc.Make (Crc._crc e) (Crc.digest_size e) (Crc.initCrc e)
              (Crc.xorOut e) (Crc.table e)
              (Z.lxor (Crc.initCrc e) (Crc.xorOut e)) (Crc.reverse e)
              (Crc.poly e))
      with (Crc.set_crcValue e (Z.lxor (Crc.initCrc e) (Crc.xorOut e)))
      in Hnew.
    destruct (Crc.update data _) as [[[] n'] | ex] eqn:Hupd;
      [| discriminate].
    cbn [bind snd] in Hnew. injection Hnew as <- _.
    eapply wf_update; [apply wf_reset, He | exact Hupd].
  - rewrite new_None in Hnew. injection Hnew as <- _.
    apply wf_reset, He.
Qed.

Lemma wf_copy (e c e' : Crc.t) :
  wf e -> Crc.copy e = Ok (c, e') -> wf c.
Proof.
  intros He Hcopy. unfold Crc.copy in Hcopy.
  rewrite new_None in Hcopy. cbn [bind fst snd] in Hcopy.
  injection Hcopy as <- _.
  apply (wf_set_crcValue _ (Crc.crcValue e) (wf_reset e He)).
  apply (wf_crcValue e He).
Qed.

Lemma reachable_wf (e : Crc.t) : reachable e -> wf e.
Proof.
  induction 1 as [poly initCrc rev xorOut e Hinit
                 | e data e' _ IH Hupd
                 | e arg n e' _ IH Hnew
                 | e c e' _ IH Hcopy].
  - eapply wf___init__, Hinit.
  - eapply wf_update; eassumption.
  - eapply wf_new; eassumption.
  - eapply wf_copy; eassumption.
Qed.

(** The engine of the registry entry crc-8, used to instantiate the
    statements below. *)
Lemma reachable_crc8 : reachable (engine_of 263 0 false 0 8).
Proof.
  apply (reach_init 263 0 false 0). apply __init___ok. reflexivity.
Defined.

(** ** Check values *)

(** The engines of the registry entries crc-8, crc-8-darc, xmodem, crc-24,
    crc-32-mpeg and crc-64-jones give the check values of the registry on
    the text "123456789". *)
Example check_crc8 :
  hexdigest_of 0x107 0x00 NON_REVERSE 0x00 check_input
  = Ok "F4"%string.
Proof. vm_compute. reflexivity. Qed.

Example check_crc8_darc :
  hexdigest_of 0x139 0x00 REVERSE 0x00 check_input
  = Ok "15"%string.
Proof. vm_compute. reflexivity. Qed.

Example check_xmodem :
  hexdigest_of 0x11021 0x0000 NON_REVERSE 0x0000 check_input
  = Ok "31C3"%string.
Proof. vm_compute. reflexivity. Qed.

Example check_crc24 :
  hexdigest_of 0x1864CFB 0xB704CE NON_REVERSE 0x000000 check_input
  = Ok "21CF02"%string.
Proof. vm_compute. reflexivity. Qed.

Example check_crc32_mpeg :
  hexdigest_of 0x104C11DB7 0xFFFFFFFF NON_REVERSE 0x00000000 check_input
  = Ok "0376E6E7"%string.
Proof. vm_compute. reflexivity. Qed.

Example check_crc64_jones :
  hexdigest_of 0x1AD93D23594C935A9 0xFFFFFFFFFFFFFFFF REVERSE 0x0000000000000000 check_input
  = Ok "CAA717168609F281"%string.
Proof. vm_compute. reflexivity. Qed.

(** ** Incremental update *)

Lemma lxor_cancel (x c : Z) : Z.lxor x (Z.lxor x c) = c.
Proof. now rewrite <- Z.lxor_assoc, Z.lxor_nilpotent, Z.lxor_0_l. Qed.

(** C3: on every engine (fresh or not), [update a] then [update b] leaves
    the state that a single [update (a ++ b)] leaves, hence the same
    digest; each update sets [crcValue] to [xorOut XOR] the block update
    of [xorOut XOR crcValue] over the data. *)
Theorem update_concat (e : Crc.t) (a b : list byte) :
  reachable e ->
  (forall data, exists c,
     engine_fun (Crc.width e) (Crc.reverse e) data
       (Z.lxor (Crc.xorOut e) (Crc.crcValue e)) (Crc.table e) = Ok c /\
     Crc.update data e =
     Ok (tt, Crc.set_crcValue e (Z.lxor (Crc.xorOut e) c))) /\
  exists ea eab,
    Crc.update a e = Ok (tt, ea) /\
    Crc.update b ea = Ok (tt, eab) /\
    Crc.update (a ++ b) e = Ok (tt, eab).
Proof.
  intros Hreach. pose proof (reachable_wf e Hreach) as He.
  split.
  { intros data. destruct (update_ok e data He) as [c [Hrun [_ Hupd]]].
    now exists c. }
  destruct (update_ok e a He) as [c1 [Hrun1 [Hc1 Hupd1]]].
  assert (Hea : wf (Crc.set_crcValue e (Z.lxor (Crc.xorOut e) c1))).
  { eapply wf_update; [exact He | exact Hupd1]. }
  destruct (update_ok _ b Hea) as [c2 [Hrun2 [Hc2 Hupd2]]].
  destruct (update_ok e (a ++ b) He) as [c3 [Hrun3 [Hc3 Hupd3]]].
  assert (Hrun2' :
    engine_fun (Crc.width e) (Crc.reverse e) b c1 (Crc.table e) = Ok c2).
  { rewrite <- (lxor_cancel (Crc.xorOut e) c1). exact Hrun2. }
  assert (Hsame : c3 = c2).
  { pose proof (wf_width e He) as Hw. pose proof (widths_ge_8 _ Hw).
    rewrite (engine_fun_app (Crc.width e) (Crc.table e) Hw (wf_length e He)
               (wf_table e He)) in Hrun3.
    - rewrite Hrun1 in Hrun3. cbn [bind] in Hrun3. congruence.
    - apply lxor_bound; [lia | apply (wf_xorOut e He) | apply (wf_crcValue e He)]. }
  subst c3.
  exists (Crc.set_crcValue e (Z.lxor (Crc.xorOut e) c1)).
  exists (Crc.set_crcValue e (Z.lxor (Crc.xorOut e) c2)).
  split; [exact Hupd1 |]. split; [exact Hupd2 | exact Hupd3].
Qed.

Lemma update_concat_witness :
  reachable (engine_of 263 0 false 0 8) /\
  (forall data, exists c,
     engine_fun (Crc.width (engine_of 263 0 false 0 8))
       (Crc.reverse (engine_of 263 0 false 0 8)) data
       (Z.lxor (Crc.xorOut (engine_of 263 0 false 0 8))
               (Crc.crcValue (engine_of 263 0 false 0 8)))
       (Crc.table (engine_of 263 0 false 0 8)) = Ok c /\
     Crc.update data (engine_of 263 0 false 0 8) =
     Ok (tt, Crc.set_crcValue (engine_of 263 0 false 0 8)
               (Z.lxor (Crc.xorOut (engine_of 263 0 false 0 8)) c))) /\
  exists ea eab,
    Crc.update [x31%byte; x32%byte] (engine_of 263 0 false 0 8) = Ok (tt, ea) /\
    Crc.update [x33%byte] ea = Ok (tt, eab) /\
    Crc.update ([x31%byte; x32%byte] ++ [x33%byte]) (engine_of 263 0 false 0 8)
    = Ok (tt, eab).
Proof.
  split; [exact reachable_crc8 |].
  exact (update_concat (engine_of 263 0 false 0 8) [x31%byte; x32%byte]
           [x33%byte] reachable_crc8).
Defined.

(** ** Invariant *)

Lemma wf_invariant (e : Crc.t) : wf e -> engine_invariant e.
Proof.
  intros He. unfold engine_invariant.
  split; [apply (wf_length e He) |].
  split; [apply (wf_table e He) | apply (wf_crcValue e He)].
Qed.

(** C4: every engine has a width among the supported ones, a table of
    exactly 256 entries, each within [0, 2^w), and a [crcValue] within
    [0, 2^w); this holds after construction, and every [update] call
    succeeds and keeps it. *)
Theorem invariant_kept (e : Crc.t) :
  reachable e ->
  In (Crc.width e) widths /\ engine_invariant e /\
  forall data, exists e',
    Crc.update data e = Ok (tt, e') /\
    Crc.width e' = Crc.width e /\ Crc.table e' = Crc.table e /\
    engine_invariant e'.
Proof.
  intros Hreach. pose proof (reachable_wf e Hreach) as He.
  split; [apply (wf_width e He) |].
  split; [now apply wf_invariant |].
  intros data. destruct (update_ok e data He) as [c [_ [_ Hupd]]].
  eexists. split; [exact Hupd |].
  split; [reflexivity |]. split; [reflexivity |].
  apply wf_invariant. eapply wf_update; [exact He | exact Hupd].
Qed.

Lemma invariant_kept_witness :
  reachable (engine_of 263 0 false 0 8) /\
  In (Crc.width (engine_of 263 0 false 0 8)) widths /\
  engine_invariant (engine_of 263 0 false 0 8) /\
  forall data, exists e',
    Crc.update data (engine_of 263 0 false 0 8) = Ok (tt, e') /\
    Crc.width e' = Crc.width (engine_of 263 0 false 0 8) /\
    Crc.table e' = Crc.table (engine_of 263 0 false 0 8) /\
    engine_invariant e'.
Proof.
  split; [exact reachable_crc8 |].
  exact (invariant_kept (engine_of 263 0 false 0 8) reachable_crc8).
Defined.

(** ** Reset *)

(** C7: on every engine, however many updates it has seen, [new()]
    returns an engine with the same function, width, polynomial,
    direction, [initCrc], [xorOut] and table, whose [crcValue] is
    [initCrc XOR xorOut] (a value that already fits in the width), and
    leaves the original as it was; [new(seed)] is that engine after
    [update(seed)]. *)
Theorem new_resets (e : Crc.t) :
  reachable e ->
  exists n,
    Crc.new None e = Ok (n, e) /\
    Crc._crc n = Crc._crc e /\
    Crc.width n = Crc.width e /\
    Crc.poly n = Crc.poly e /\
    Crc.reverse n = Crc.reverse e /\
    Crc.initCrc n = Crc.initCrc e /\
    Crc.xorOut n = Crc.xorOut e /\
    Crc.table n = Crc.table e /\
    Crc.crcValue n = Z.lxor (Crc.initCrc e) (Crc.xorOut e) /\
    Crc.crcValue n =
    Z.land (Z.lxor (Crc.initCrc e) (Crc.xorOut e)) (Z.ones (Crc.width e)) /\
    forall seed, exists n',
      Crc.update seed n = Ok (tt, n') /\
      Crc.new (Some seed) e = Ok (n', e).
Proof.
  intros Hreach. pose proof (reachable_wf e Hreach) as He.
  pose proof (wf_reset e He) as Hn.
  exists (Crc.set_crcValue e (Z.lxor (Crc.initCrc e) (Crc.xorOut e))).
  split; [apply new_None |].
  do 8 (split; [reflexivity |]).
  split.
  - cbn [Crc.set_crcValue Crc.crcValue].
    symmetry. apply land_ones_small.
    + pose proof (widths_ge_8 _ (wf_width e He)). lia.
    + apply (wf_crcValue _ Hn).
  - intros seed. destruct (update_ok _ seed Hn) as [c [_ [_ Hupd]]].
    eexists. split; [exact Hupd |].
    unfold Crc.new.
    change (Crc.Make (Crc._crc e) (Crc.digest_size e) (Crc.initCrc e)
              (Crc.xorOut e) (Crc.table e)
              (Z.lxor (Crc.initCrc e) (Crc.xorOut e)) (Crc.reverse e)
              (Crc.poly e))
      with (Crc.set_crcValue e (Z.lxor (Crc.initCrc e) (Crc.xorOut e))).
    rewrite Hupd. reflexivity.
Qed.

Lemma new_resets_witness :
  reachable (engine_of 263 0 false 0 8) /\
  exists n,
    Crc.new None (engine_of 263 0 false 0 8)
    = Ok (n, engine_of 263 0 false 0 8) /\
    Crc._crc n = Crc._crc (engine_of 263 0 false 0 8) /\
    Crc.width n = Crc.width (engine_of 263 0 false 0 8) /\
    Crc.poly n = Crc.poly (engine_of 263 0 false 0 8) /\
    Crc.reverse n = Crc.reverse (engine_of 263 0 false 0 8) /\
    Crc.initCrc n = Crc.initCrc (engine_of 263 0 false 0 8) /\
    Crc.xorOut n = Crc.xorOut (engine_of 263 0 false 0 8) /\
    Crc.table n = Crc.table (engine_of 263 0 false 0 8) /\
    Crc.crcValue n =
    Z.lxor (Crc.initCrc (engine_of 263 0 false 0 8))
           (Crc.xorOut (engine_of 263 0 false 0 8)) /\
    Crc.crcValue n =
    Z.land (Z.lxor (Crc.initCrc (engine_of 263 0 false 0 8))
                   (Crc.xorOut (engine_of 263 0 false 0 8)))
           (Z.ones (Crc.width (engine_of 263 0 false 0 8))) /\
    forall seed, exists n',
      Crc.update seed n = Ok (tt, n') /\
      Crc.new (Some seed) (engine_of 263 0 false 0 8)
      = Ok (n', engine_of 263 0 false 0 8).
Proof.
  split; [exact reachable_crc8 |].
  exact (new_resets (engine_of 263 0 false 0 8) reachable_crc8).
Defined.

(** ** Digest *)

Lemma byte_of_spec (v : Z) :
  0 <= v < 256 -> Byte.of_N (Z.to_N v) = Some (byte_of v) /\ ord (byte_of v) = v.
Proof.
  intros Hv. unfold byte_of, ord.
  destruct (Byte.of_N (Z.to_N v)) as [b |] eqn:Hb.
  - split; [reflexivity |]. apply Byte.to_of_N in Hb. rewrite Hb. lia.
  - apply Byte.of_N_None_iff in Hb. lia.
Qed.

Lemma chr_ok (v : Z) : 0 <= v < 256 -> chr v = Ok (byte_of v).
Proof.
  intros Hv. unfold chr.
  destruct (Z.ltb_spec v 0) as [Hneg | _]; [lia |].
  now rewrite (proj1 (byte_of_spec v Hv)).
Qed.

Lemma land_255_bound (c : Z) : 0 <= Z.land c 255 < 256.
Proof.
  change 255 with (Z.ones 8). change 256 with (2 ^ 8).
  apply land_ones_bound. lia.
Qed.

Lemma le_values_range (k : nat) : forall crc,
  Forall (fun v => 0 <= v < 256) (le_values k crc).
Proof.
  induction k as [| k IH]; intros crc; simpl; constructor.
  - apply land_255_bound.
  - apply IH.
Qed.

Lemma le_values_length (k : nat) : forall crc,
  List.length (le_values k crc) = k.
Proof. induction k as [| k IH]; intros crc; simpl; [| rewrite IH]; reflexivity. Qed.

Lemma digest_while_eq (k : nat) : forall crc lst,
  Crc.digest_while k crc lst = Ok (lst ++ map byte_of (le_values k crc)).
Proof.
  induction k as [| k IH]; intros crc lst; simpl.
  - now rewrite app_nil_r.
  - rewrite chr_ok by apply land_255_bound. cbn [bind].
    rewrite IH, <- app_assoc. reflexivity.
Qed.

Lemma big_endian_snoc (bs : list byte) (b : byte) :
  big_endian (bs ++ [b]) = big_endian bs * 256 + ord b.
Proof. unfold big_endian. now rewrite fold_left_app. Qed.

Lemma big_endian_le_values (k : nat) : forall crc,
  big_endian (rev (map byte_of (le_values k crc)))
  = crc mod 2 ^ (8 * Z.of_nat k).
Proof.
  induction k as [| k IH]; intros crc.
  - simpl. now rewrite Z.mod_1_r.
  - cbn [le_values map rev]. rewrite big_endian_snoc, IH.
    rewrite (proj2 (byte_of_spec _ (land_255_bound crc))).
    change 255 with (Z.ones 8). rewrite Z.land_ones by lia.
    rewrite Z.shiftr_div_pow2 by lia.
    replace (8 * Z.of_nat (S k)) with (8 + 8 * Z.of_nat k) by lia.
    rewrite Z.pow_add_r by lia.
    rewrite Z.rem_mul_r; [lia | lia |].
    apply Z.pow_pos_nonneg; lia.
Qed.

Lemma digest_eq (e : Crc.t) :
  Crc.digest e =
  Ok (rev (map byte_of (le_values (Z.to_nat (Crc.digest_size e))
                                  (Crc.crcValue e))), e).
Proof.
  unfold Crc.digest. now rewrite digest_while_eq.
Qed.

Lemma digest_size_width (e : Crc.t) :
  wf e -> 1 <= Crc.digest_size e /\ ceil8 (Crc.width e) = Crc.digest_size e.
Proof.
  intros He. pose proof (widths_ge_8 _ (wf_width e He)) as Hw.
  unfold ceil8, Crc.width in *.
  split; [lia |].
  replace (8 * Crc.digest_size e + 7) with (7 + Crc.digest_size e * 8) by lia.
  rewrite Z.div_add by lia. reflexivity.
Qed.

(** C5: on every engine, after any sequence of updates, [digest()] returns
    exactly [ceil(w/8)] bytes whose big-endian value is [crcValue] (so the
    encoding is padded with zeros on the left), and leaves the engine as
    it was. *)
Theorem digest_big_endian (e : Crc.t) :
  reachable e ->
  exists bs,
    Crc.digest e = Ok (bs, e) /\
    Z.of_nat (List.length bs) = ceil8 (Crc.width e) /\
    big_endian bs = Crc.crcValue e.
Proof.
  intros Hreach. pose proof (reachable_wf e Hreach) as He.
  destruct (digest_size_width e He) as [Hpos Hceil].
  eexists. split; [apply digest_eq |]. split.
  - rewrite length_rev, length_map, le_values_length. lia.
  - rewrite big_endian_le_values.
    rewrite Z2Nat.id by lia.
    apply Z.mod_small. apply (wf_crcValue e He).
Qed.

Lemma digest_big_endian_witness :
  reachable (engine_of 263 0 false 0 8) /\
  exists bs,
    Crc.digest (engine_of 263 0 false 0 8)
    = Ok (bs, engine_of 263 0 false 0 8) /\
    Z.of_nat (List.length bs) = ceil8 (Crc.width (engine_of 263 0 false 0 8)) /\
    big_endian bs = Crc.crcValue (engine_of 263 0 false 0 8).
Proof.
  split; [exact reachable_crc8 |].
  exact (digest_big_endian (engine_of 263 0 false 0 8) reachable_crc8).
Defined.

(** ** Hexadecimal digest *)

Lemma format_02X_byte (v : Z) :
  0 <= v < 256 ->
  format_02X v =
  String (hexdigit (v / 16)) (String (hexdigit (v mod 16)) EmptyString).
Proof.
  intros Hv. apply String.eqb_eq.
  apply (xrange_forallb
           (fun v => String.eqb (format_02X v)
              (String (hexdigit (v / 16))
                 (String (hexdigit (v mod 16)) EmptyString))) 256);
    [vm_compute; reflexivity | exact Hv].
Qed.

Lemma unhex_hexdigit (d : Z) :
  0 <= d < 16 ->
  unhex_digit (hexdigit d) = Some d /\ is_upper_hex (hexdigit d) = true.
Proof.
  intros Hd.
  assert (H : (match unhex_digit (hexdigit d) with
               | Some d' => d' =? d
               | None => false
               end && is_upper_hex (hexdigit d))%bool = true).
  { apply (xrange_forallb
             (fun d => (match unhex_digit (hexdigit d) with
                        | Some d' => d' =? d
                        | None => false
                        end && is_upper_hex (hexdigit d))%bool) 16);
      [vm_compute; reflexivity | exact Hd]. }
  apply andb_prop in H. destruct H as [Hun Hup].
  split; [| exact Hup].
  destruct (unhex_digit (hexdigit d)) as [d' |]; [| discriminate].
  apply Z.eqb_eq in Hun. now subst.
Qed.

Lemma nibbles (v : Z) :
  0 <= v < 256 ->
  0 <= v / 16 < 16 /\ 0 <= v mod 16 < 16 /\ 16 * (v / 16) + v mod 16 = v.
Proof.
  intros Hv. split; [| split].
  - split; [apply Z.div_pos; lia | apply Z.div_lt_upper_bound; lia].
  - apply Z.mod_pos_bound. lia.
  - symmetry. apply Z.div_mod. lia.
Qed.

Lemma concat_empty_cons (s : string) (l : list string) :
  String.concat "" (s :: l) = (s ++ String.concat "" l)%string.
Proof.
  destruct l as [| s' l]; simpl.
  - induction s as [| c s IH]; simpl; [reflexivity | now rewrite <- IH].
  - reflexivity.
Qed.

Lemma hexdigest_while_eq (k : nat) : forall crc lst,
  Crc.hexdigest_while k crc lst = lst ++ map format_02X (le_values k crc).
Proof.
  induction k as [| k IH]; intros crc lst; simpl.
  - now rewrite app_nil_r.
  - rewrite IH, <- app_assoc. reflexivity.
Qed.

Lemma hexdigest_eq (e : Crc.t) :
  Crc.hexdigest e =
  Ok (String.concat ""
        (map format_02X
           (rev (le_values (Z.to_nat (Crc.digest_size e)) (Crc.crcValue e)))),
      e).
Proof.
  unfold Crc.hexdigest. rewrite hexdigest_while_eq. cbn [app].
  now rewrite map_rev.
Qed.

(** The text of a list of byte values: two upper-case digits per value,
    which decode to the bytes of these values. *)
Lemma hex_of_values (vs : list Z) :
  Forall (fun v => 0 <= v < 256) vs ->
  let s := String.concat "" (map format_02X vs) in
  String.length s = (2 * List.length vs)%nat /\
  Forall (fun c => is_upper_hex c = true) (list_ascii_of_string s) /\
  unhexlify s = Some (map byte_of vs).
Proof.
  induction 1 as [| v vs Hv Hvs IH]; cbv zeta.
  - simpl. split; [reflexivity |]. split; [constructor | reflexivity].
  - cbv zeta in IH. destruct IH as [Hlen [Hup Hdec]].
    cbn [map]. rewrite concat_empty_cons, (format_02X_byte v Hv).
    destruct (nibbles v Hv) as [Hhi [Hlo Hsum]].
    destruct (unhex_hexdigit _ Hhi) as [Hunhi Huphi].
    destruct (unhex_hexdigit _ Hlo) as [Hunlo Huplo].
    cbn [append String.length list_ascii_of_string unhexlify].
    split; [| split].
    + rewrite Hlen. cbn [List.length]. lia.
    + repeat constructor; assumption.
    + rewrite Hunhi, Hunlo, Hdec, Hsum.
      now rewrite (proj1 (byte_of_spec v Hv)).
Qed.

(** C9: on every engine, after any sequence of updates, [hexdigest()]
    returns a text of exactly [2*ceil(w/8)] characters, all of them
    upper-case hexadecimal digits, and decoding it two digits per byte
    gives exactly the bytes that [digest()] returns in the same state;
    neither method changes the engine. *)
Theorem hexdigest_decodes (e : Crc.t) :
  reachable e ->
  exists s bs,
    Crc.hexdigest e = Ok (s, e) /\
    Crc.digest e = Ok (bs, e) /\
    Z.of_nat (String.length s) = 2 * ceil8 (Crc.width e) /\
    Forall (fun c => is_upper_hex c = true) (list_ascii_of_string s) /\
    unhexlify s = Some bs.
Proof.
  intros Hreach. pose proof (reachable_wf e Hreach) as He.
  destruct (digest_size_width e He) as [Hpos Hceil].
  pose proof (hex_of_values
                (rev (le_values (Z.to_nat (Crc.digest_size e))
                                (Crc.crcValue e)))) as Hhex.
  cbv zeta in Hhex.
  destruct Hhex as [Hlen [Hup Hdec]].
  { apply Forall_rev, le_values_range. }
  eexists. eexists.
  split; [apply hexdigest_eq |]. split; [apply digest_eq |].
  split; [| split].
  - rewrite Hlen, length_rev, le_values_length. lia.
  - exact Hup.
  - rewrite Hdec, map_rev. reflexivity.
Qed.

Lemma hexdigest_decodes_witness :
  reachable (engine_of 263 0 false 0 8) /\
  exists s bs,
    Crc.hexdigest (engine_of 263 0 false 0 8)
    = Ok (s, engine_of 263 0 false 0 8) /\
    Crc.digest (engine_of 263 0 false 0 8)
    = Ok (bs, engine_of 263 0 false 0 8) /\
    Z.of_nat (String.length s)
    = 2 * ceil8 (Crc.width (engine_of 263 0 false 0 8)) /\
    Forall (fun c => is_upper_hex c = true) (list_ascii_of_string s) /\
    unhexlify s = Some bs.
Proof.
  split; [exact reachable_crc8 |].
  exact (hexdigest_decodes (engine_of 263 0 false 0 8) reachable_crc8).
Defined.

(** ** Direction sensitivity *)



Lemma valid_polyb_spec (poly n : Z) :
  valid_poly poly n -> valid_polyb poly n = true.
Proof.
  unfold valid_poly, valid_polyb. intros [Hl Hh].
  apply andb_true_intro. split; [now apply Z.leb_le | now apply Z.ltb_lt].
Qed.





(** With the block update functions of section 4.5, the forward and the
    reversed function of width 8 are the same function of the data, the
    value and the table. *)
Lemma width8_block_updates_coincide (T : list Z) (data : list byte) :
  List.length T = 256%nat -> Forall (fun t => 0 <= t < 2 ^ 8) T ->
  forall c, in_range 8 c ->
  _crcfun._crc8 data c T = _crcfun._crc8r data c T.
Proof.
  intros Hlen Hrange.
  assert (Hw : In 8 widths) by (simpl; auto).
  assert (Hstep : forall c b, in_range 8 c ->
            blockUpdate_step 8 T c b = blockUpdate_r_step T c b).
  { intros c b Hc. unfold blockUpdate_step, blockUpdate_r_step.
    change (8 - 8) with 0. rewrite Z.shiftr_0_r.
    change 255 with (Z.ones 8).
    rewrite (land_ones_small 8 c) by (unfold in_range in Hc; lia).
    assert (Hidx : 0 <= Z.lxor (ord b) c < 256).
    { change 256 with (2 ^ 8).
      apply lxor_bound; [lia | apply ord_bound | exact Hc]. }
    destruct (getitem_ok T _ Hlen Hidx) as [t [-> Ht]]. cbn [bind].
    rewrite Forall_forall in Hrange. specialize (Hrange t Ht).
    f_equal. apply Z.bits_inj'. intros i Hi.
    rewrite Z.land_spec, !Z.lxor_spec, Z.shiftl_spec, Z.shiftr_spec by lia.
    destruct (Z.lt_ge_cases i 8) as [Hlt | Hge].
    - rewrite Z.ones_spec_low by lia.
      rewrite (Z.testbit_neg_r c (i - 8)) by lia.
      rewrite (bound_bits_above 8 c (i + 8)) by (unfold in_range in Hc; lia).
      now rewrite andb_true_r.
    - rewrite Z.ones_spec_high by lia.
      rewrite (bound_bits_above 8 t i) by lia.
      rewrite (bound_bits_above 8 c (i + 8)) by (unfold in_range in Hc; lia).
      now rewrite andb_false_r. }
  unfold _crcfun._crc8, _crcfun._crc8r, blockUpdate, blockUpdate_r.
  change (8 =? 24) with false. cbv iota.
  induction data as [| b data IH]; intros c Hc; simpl; [reflexivity |].
  rewrite Hstep by exact Hc.
  destruct (blockUpdate_r_step_ok 8 T Hw Hlen Hrange c b Hc) as [c' [-> Hc']].
  cbn [bind]. now apply IH.
Qed.

(** * Further properties of the code *)

(** ** The validator as a logarithm *)

(** X1: [_verifyPoly] returns the position of the highest set bit of [poly]
    when it is one of the supported widths, and raises otherwise; it
    raises for zero and for negative numbers. *)
Theorem _verifyPoly_log2 (poly : Z) :
  _verifyPoly poly =
  if (0 <? poly) && existsb (Z.eqb (Z.log2 poly)) widths
  then Ok (Z.log2 poly)
  else Raise InvalidPolynomial.
Proof.
  pose proof (_verifyPoly_spec poly) as Hspec.
  destruct (_verifyPoly poly) as [n | e].
  - destruct Hspec as [Hin [Hlow Hhigh]].
    pose proof (widths_ge_8 n Hin) as Hn.
    assert (Hpos : 0 < poly).
    { assert (0 < 2 ^ n) by (apply Z.pow_pos_nonneg; lia). lia. }
    assert (Hlog : Z.log2 poly = n).
    { apply Z.log2_unique; [lia |]. rewrite <- Z.add_1_r. now split. }
    rewrite Hlog.
    destruct (Z.ltb_spec 0 poly) as [_ | Hle]; [| lia]. cbn [andb].
    replace (existsb (Z.eqb n) widths) with true; [reflexivity |].
    symmetry. apply existsb_exists. exists n. split; [exact Hin |].
    apply Z.eqb_refl.
  - destruct Hspec as [-> Hnone].
    destruct (Z.ltb_spec 0 poly) as [Hpos | _]; [| reflexivity]. cbn [andb].
    destruct (existsb (Z.eqb (Z.log2 poly)) widths) eqn:Hex; [| reflexivity].
    exfalso. apply existsb_exists in Hex. destruct Hex as [w [Hw Heq]].
    apply Z.eqb_eq in Heq. subst w.
    apply (Hnone _ Hw). unfold valid_poly.
    rewrite Z.add_1_r. now apply Z.log2_spec.
Qed.

(** ** Bit reversal is an involution *)

Lemma mod_pow2_bits (x n i : Z) :
  0 <= n -> 0 <= i ->
  Z.testbit (x mod 2 ^ n) i = if i <? n then Z.testbit x i else false.
Proof.
  intros Hn Hi. destruct (Z.ltb_spec i n).
  - now apply Z.mod_pow2_bits_low.
  - now apply Z.mod_pow2_bits_high.
Qed.

(** X2: [_bitrev] raises for a negative [n]; for [n >= 0], reversing twice
    gives back the low [n] bits of [x], and the result depends on these
    bits only. *)
Theorem _bitrev_involution (x n : Z) :
  (n < 0 -> _bitrev x n = Raise (ValueError "negative shift count")) /\
  (0 <= n ->
   exists y, _bitrev x n = Ok y /\ _bitrev y n = Ok (x mod 2 ^ n) /\
             _bitrev (x mod 2 ^ n) n = Ok y).
Proof.
  split.
  - intros Hn. unfold _bitrev, lshift.
    destruct (Z.ltb_spec n 0); [reflexivity | lia].
  - intros Hn. exists (_bitrev_for (Z.to_nat n) x 0).
    split; [now apply _bitrev_ok |]. split.
    + rewrite _bitrev_ok by assumption. f_equal.
      apply Z.bits_inj'. intros i Hi.
      rewrite _bitrev_for_bits, mod_pow2_bits by assumption.
      destruct (Z.ltb_spec i n) as [Hlt | Hge]; [| reflexivity].
      rewrite _bitrev_for_bits by lia.
      destruct (Z.ltb_spec (n - 1 - i) n); [| lia].
      f_equal. lia.
    + rewrite _bitrev_ok by assumption. f_equal.
      apply Z.bits_inj'. intros i Hi.
      rewrite !_bitrev_for_bits by assumption.
      destruct (Z.ltb_spec i n) as [Hlt | Hge]; [| reflexivity].
      rewrite mod_pow2_bits by lia.
      destruct (Z.ltb_spec (n - 1 - i) n); [reflexivity | lia].
Qed.

(** ** The tables are linear *)

Ltac bitwise :=
  apply Z.bits_inj'; intros ?i ?Hi;
  rewrite ?Z.lxor_spec, ?Z.land_spec, ?Z.lxor_spec, ?Z.bits_0;
  repeat match goal with
         | |- context [Z.testbit ?a ?i] => destruct (Z.testbit a i)
         end;
  reflexivity.

Lemma land_lxor_distr (a b m : Z) :
  Z.land (Z.lxor a b) m = Z.lxor (Z.land a m) (Z.land b m).
Proof. bitwise. Qed.

Lemma forward_round_lxor (n p a b : Z) :
  forward_round n p (Z.lxor a b)
  = Z.lxor (forward_round n p a) (forward_round n p b).
Proof.
  unfold forward_round. cbv zeta.
  rewrite Z.shiftl_lxor, Z.lxor_spec.
  destruct (Z.testbit (Z.shiftl a 1) n), (Z.testbit (Z.shiftl b 1) n);
    cbn [xorb]; bitwise.
Qed.

Lemma reversed_round_lxor (p a b : Z) :
  reversed_round p (Z.lxor a b)
  = Z.lxor (reversed_round p a) (reversed_round p b).
Proof.
  unfold reversed_round. cbv zeta.
  rewrite Z.shiftr_lxor, Z.lxor_spec.
  destruct (Z.testbit a 0), (Z.testbit b 0); cbn [xorb]; bitwise.
Qed.

Lemma iter_lxor (f : Z -> Z) (k : nat) :
  (forall a b, f (Z.lxor a b) = Z.lxor (f a) (f b)) ->
  forall a b, Nat.iter k f (Z.lxor a b)
              = Z.lxor (Nat.iter k f a) (Nat.iter k f b).
Proof.
  intros Hf a b. induction k as [| k IH]; simpl; [reflexivity |].
  now rewrite IH, Hf.
Qed.

Lemma forward_entry_lxor (poly n i j : Z) :
  forward_entry poly n (Z.lxor i j)
  = Z.lxor (forward_entry poly n i) (forward_entry poly n j).
Proof.
  unfold forward_entry.
  rewrite Z.shiftl_lxor, iter_lxor by (intros; apply forward_round_lxor).
  apply land_lxor_distr.
Qed.

Lemma reversed_entry_lxor (poly n i j : Z) :
  reversed_entry poly n (Z.lxor i j)
  = Z.lxor (reversed_entry poly n i) (reversed_entry poly n j).
Proof.
  unfold reversed_entry.
  rewrite iter_lxor by (intros; apply reversed_round_lxor).
  apply land_lxor_distr.
Qed.

Lemma map_xrange_nth (f : Z -> Z) (i : Z) :
  0 <= i < 256 -> nth_error (map f (xrange 256)) (Z.to_nat i) = Some (f i).
Proof. intros Hi. now rewrite nth_error_map, xrange_nth. Qed.

Lemma byte_lxor_bound (i j : Z) :
  0 <= i < 256 -> 0 <= j < 256 -> 0 <= Z.lxor i j < 256.
Proof. intros Hi Hj. change 256 with (2 ^ 8). apply lxor_bound; lia. Qed.

(** X3: Both tables are linear over XOR, for every polynomial and every
    [n >= 8]: the entry at [i XOR j] is the XOR of the entries at [i] and
    at [j]. *)
Theorem tables_linear (poly n i j : Z) :
  8 <= n -> 0 <= i < 256 -> 0 <= j < 256 ->
  (exists T ti tj,
     _mkTable poly n = Ok T /\
     nth_error T (Z.to_nat i) = Some ti /\
     nth_error T (Z.to_nat j) = Some tj /\
     nth_error T (Z.to_nat (Z.lxor i j)) = Some (Z.lxor ti tj)) /\
  (exists T ti tj,
     _mkTable_r poly n = Ok T /\
     nth_error T (Z.to_nat i) = Some ti /\
     nth_error T (Z.to_nat j) = Some tj /\
     nth_error T (Z.to_nat (Z.lxor i j)) = Some (Z.lxor ti tj)).
Proof.
  intros Hn Hi Hj. pose proof (byte_lxor_bound i j Hi Hj) as Hij.
  split.
  - exists (map (forward_entry poly n) (xrange 256)).
    exists (forward_entry poly n i), (forward_entry poly n j).
    split; [now apply _mkTable_ok |].
    rewrite !map_xrange_nth by assumption.
    now rewrite forward_entry_lxor.
  - exists (map (reversed_entry poly n) (xrange 256)).
    exists (reversed_entry poly n i), (reversed_entry poly n j).
    split; [apply _mkTable_r_ok; lia |].
    rewrite !map_xrange_nth by assumption.
    now rewrite reversed_entry_lxor.
Qed.

Lemma tables_linear_witness :
  8 <= 16 /\ 0 <= 3 < 256 /\ 0 <= 5 < 256 /\
  (exists T ti tj,
     _mkTable 98309 16 = Ok T /\
     nth_error T (Z.to_nat 3) = Some ti /\
     nth_error T (Z.to_nat 5) = Some tj /\
     nth_error T (Z.to_nat (Z.lxor 3 5)) = Some (Z.lxor ti tj)) /\
  (exists T ti tj,
     _mkTable_r 98309 16 = Ok T /\
     nth_error T (Z.to_nat 3) = Some ti /\
     nth_error T (Z.to_nat 5) = Some tj /\
     nth_error T (Z.to_nat (Z.lxor 3 5)) = Some (Z.lxor ti tj)).
Proof.
  split; [lia |]. split; [lia |]. split; [lia |].
  apply (tables_linear 98309 16 3 5); lia.
Defined.

(** ** Known entries *)

Lemma forward_round_pow2 (n p m : Z) :
  0 <= m -> m + 1 <> n -> forward_round n p (2 ^ m) = 2 ^ (m + 1).
Proof.
  intros Hm Hne. unfold forward_round. cbv zeta.
  rewrite Z.shiftl_mul_pow2 by lia.
  replace (2 ^ m * 2 ^ 1) with (2 ^ (m + 1)) by (rewrite Z.pow_add_r; lia).
  rewrite Z.pow2_bits_false by lia. reflexivity.
Qed.

Lemma forward_round_top (n p : Z) :
  1 <= n -> forward_round n p (2 ^ (n - 1)) = Z.lxor (2 ^ n) p.
Proof.
  intros Hn. unfold forward_round. cbv zeta.
  rewrite Z.shiftl_mul_pow2 by lia.
  replace (2 ^ (n - 1) * 2 ^ 1) with (2 ^ n).
  - rewrite Z.pow2_bits_true by lia. reflexivity.
  - rewrite <- Z.pow_add_r by lia. f_equal. lia.
Qed.

Lemma forward_entry_1 (poly n : Z) :
  8 <= n -> forward_entry poly n 1 = stripped poly n.
Proof.
  intros Hn. unfold forward_entry.
  rewrite Z.shiftl_1_l. cbn [Nat.iter nat_rect].
  rewrite !forward_round_pow2 by lia.
  replace (n - 8 + 1 + 1 + 1 + 1 + 1 + 1 + 1) with (n - 1) by lia.
  rewrite forward_round_top by lia.
  assert (Hp : 0 <= stripped poly n < 2 ^ n).
  { unfold stripped. apply Z.mod_pos_bound. apply Z.pow_pos_nonneg; lia. }
  rewrite Z.land_ones by lia.
  apply Z.bits_inj'. intros i Hi.
  rewrite mod_pow2_bits by lia.
  destruct (Z.ltb_spec i n) as [Hlt | Hge].
  - rewrite Z.lxor_spec, Z.pow2_bits_false by lia. reflexivity.
  - symmetry. now apply (bound_bits_above n).
Qed.

Lemma reversed_round_128 (p : Z) : Nat.iter 8 (reversed_round p) 128 = p.
Proof. reflexivity. Qed.

(** X4: In the forward table of any polynomial, for [n >= 8], entry 1 is the
    polynomial without its leading bit; in the reversed table entry 128
    is that polynomial bit-reversed. *)
Theorem tables_generator_entries (poly n : Z) :
  8 <= n ->
  (exists T, _mkTable poly n = Ok T /\ nth_error T 1 = Some (poly mod 2 ^ n)) /\
  (exists T y,
     _mkTable_r poly n = Ok T /\ _bitrev (poly mod 2 ^ n) n = Ok y /\
     nth_error T 128 = Some y).
Proof.
  intros Hn. split.
  - exists (map (forward_entry poly n) (xrange 256)).
    split; [now apply _mkTable_ok |].
    change 1%nat with (Z.to_nat 1).
    rewrite map_xrange_nth by lia. f_equal. now apply forward_entry_1.
  - exists (map (reversed_entry poly n) (xrange 256)).
    exists (_bitrev_for (Z.to_nat n) (poly mod 2 ^ n) 0).
    split; [apply _mkTable_r_ok; lia |].
    split; [apply _bitrev_ok; lia |].
    change 128%nat with (Z.to_nat 128).
    rewrite map_xrange_nth by lia. f_equal.
    unfold reversed_entry. rewrite reversed_round_128.
    fold (stripped poly n).
    rewrite <- _bitrev_for_reversed_bits by lia.
    apply land_ones_small; [lia |]. apply _bitrev_for_bound. lia.
Qed.

Lemma tables_generator_entries_witness :
  8 <= 32 /\
  (exists T, _mkTable 4374732215 32 = Ok T /\
             nth_error T 1 = Some (4374732215 mod 2 ^ 32)) /\
  (exists T y,
     _mkTable_r 4374732215 32 = Ok T /\
     _bitrev (4374732215 mod 2 ^ 32) 32 = Ok y /\
     nth_error T 128 = Some y).
Proof.
  split; [lia |]. apply (tables_generator_entries 4374732215 32); lia.
Defined.

(** ** The reversed table mirrors the forward table *)

Lemma forward_round_bits (n p c j : Z) :
  1 <= n -> 0 <= j ->
  Z.testbit (forward_round n p c) j
  = xorb (Z.testbit c (j - 1)) (Z.testbit c (n - 1) && Z.testbit p j).
Proof.
  intros Hn Hj. unfold forward_round. cbv zeta.
  rewrite (Z.shiftl_spec c 1 n) by lia.
  destruct (Z.testbit c (n - 1)); cbn [andb].
  - now rewrite Z.lxor_spec, Z.shiftl_spec by lia.
  - rewrite Z.shiftl_spec by lia. now rewrite xorb_false_r.
Qed.

Lemma reversed_round_bits (p c j : Z) :
  0 <= j ->
  Z.testbit (reversed_round p c) j
  = xorb (Z.testbit c (j + 1)) (Z.testbit c 0 && Z.testbit p j).
Proof.
  intros Hj. unfold reversed_round. cbv zeta.
  destruct (Z.testbit c 0); cbn [andb].
  - now rewrite Z.lxor_spec, Z.shiftr_spec by lia.
  - rewrite Z.shiftr_spec by lia. now rewrite xorb_false_r.
Qed.

(** One forward round, mirrored, is one reversed round with the mirrored
    polynomial. *)
Lemma mirror_forward_round (n p c : Z) :
  1 <= n ->
  _bitrev_for (Z.to_nat n) (forward_round n p c) 0
  = reversed_round (_bitrev_for (Z.to_nat n) p 0)
                   (_bitrev_for (Z.to_nat n) c 0).
Proof.
  intros Hn. apply Z.bits_inj'. intros j Hj.
  rewrite reversed_round_bits by assumption.
  rewrite !_bitrev_for_bits by lia.
  destruct (Z.ltb_spec 0 n) as [_ | Hbad]; [| lia].
  replace (n - 1 - 0) with (n - 1) by lia.
  destruct (Z.ltb_spec j n) as [Hlt | Hge].
  - rewrite forward_round_bits by lia.
    replace (n - 1 - j - 1) with (n - 1 - (j + 1)) by lia.
    destruct (Z.ltb_spec (j + 1) n) as [Hlt' | Hge']; [reflexivity |].
    now rewrite Z.testbit_neg_r by lia.
  - destruct (Z.ltb_spec (j + 1) n); [lia |].
    now rewrite andb_false_r.
Qed.

Lemma mirror_iter (n p : Z) (k : nat) : forall c,
  1 <= n ->
  _bitrev_for (Z.to_nat n) (Nat.iter k (forward_round n p) c) 0
  = Nat.iter k (reversed_round (_bitrev_for (Z.to_nat n) p 0))
             (_bitrev_for (Z.to_nat n) c 0).
Proof.
  intros c Hn. induction k as [| k IH]; simpl; [reflexivity |].
  now rewrite mirror_forward_round, IH.
Qed.

Lemma mirror_land_ones (n x : Z) :
  0 <= n ->
  _bitrev_for (Z.to_nat n) (Z.land x (Z.ones n)) 0
  = _bitrev_for (Z.to_nat n) x 0.
Proof.
  intros Hn. apply Z.bits_inj'. intros j Hj.
  rewrite !_bitrev_for_bits by assumption.
  destruct (Z.ltb_spec j n); [| reflexivity].
  rewrite Z.land_spec, Z.ones_spec_low by lia. apply andb_true_r.
Qed.

Lemma mirror_shifted_byte (n i : Z) :
  8 <= n ->
  _bitrev_for (Z.to_nat n) (Z.shiftl i (n - 8)) 0
  = _bitrev_for (Z.to_nat 8) i 0.
Proof.
  intros Hn. apply Z.bits_inj'. intros j Hj.
  rewrite !_bitrev_for_bits by lia.
  destruct (Z.ltb_spec j n) as [Hlt | Hge];
    destruct (Z.ltb_spec j 8) as [Hlt8 | Hge8]; try lia.
  - rewrite Z.shiftl_spec by lia. f_equal. lia.
  - rewrite Z.shiftl_spec by lia. apply Z.testbit_neg_r. lia.
Qed.

Lemma reversed_entry_mirror (poly n i : Z) :
  8 <= n ->
  reversed_entry poly n (_bitrev_for (Z.to_nat 8) i 0)
  = _bitrev_for (Z.to_nat n) (forward_entry poly n i) 0.
Proof.
  intros Hn. unfold reversed_entry, forward_entry.
  rewrite mirror_land_ones by lia.
  rewrite <- _bitrev_for_reversed_bits by lia.
  rewrite <- (mirror_shifted_byte n i Hn).
  rewrite <- mirror_iter by lia.
  apply land_ones_small; [lia |]. apply _bitrev_for_bound. lia.
Qed.

Lemma _bitrev_for_twice (x n : Z) :
  0 <= n ->
  _bitrev_for (Z.to_nat n) (_bitrev_for (Z.to_nat n) x 0) 0 = x mod 2 ^ n.
Proof.
  intros Hn. apply Z.bits_inj'. intros i Hi.
  rewrite _bitrev_for_bits, mod_pow2_bits by assumption.
  destruct (Z.ltb_spec i n) as [Hlt | Hge]; [| reflexivity].
  rewrite _bitrev_for_bits by lia.
  destruct (Z.ltb_spec (n - 1 - i) n); [| lia].
  f_equal. lia.
Qed.

(** X5: For every polynomial and every [n >= 8], entry [i] of the reversed
    table is the bit reversal over [n] bits of the entry of the forward
    table at the bit reversal of [i] over 8 bits. *)
Theorem tables_mirror (poly n i : Z) :
  8 <= n -> 0 <= i < 256 ->
  exists Tf Tr i' t r,
    _mkTable poly n = Ok Tf /\ _mkTable_r poly n = Ok Tr /\
    _bitrev i 8 = Ok i' /\ nth_error Tf (Z.to_nat i') = Some t /\
    _bitrev t n = Ok r /\ nth_error Tr (Z.to_nat i) = Some r.
Proof.
  intros Hn Hi.
  set (i' := _bitrev_for (Z.to_nat 8) i 0).
  assert (Hi' : 0 <= i' < 256).
  { change 256 with (2 ^ 8). apply _bitrev_for_bound. lia. }
  assert (Hback : _bitrev_for (Z.to_nat 8) i' 0 = i).
  { unfold i'. rewrite (_bitrev_for_twice i 8) by lia.
    apply Z.mod_small. change (2 ^ 8) with 256. lia. }
  exists (map (forward_entry poly n) (xrange 256)).
  exists (map (reversed_entry poly n) (xrange 256)).
  exists i', (forward_entry poly n i').
  exists (_bitrev_for (Z.to_nat n) (forward_entry poly n i') 0).
  split; [now apply _mkTable_ok |].
  split; [apply _mkTable_r_ok; lia |].
  split; [apply _bitrev_ok; lia |].
  split; [now apply map_xrange_nth |].
  split; [apply _bitrev_ok; lia |].
  rewrite map_xrange_nth by assumption. f_equal.
  rewrite <- reversed_entry_mirror by assumption.
  now rewrite Hback.
Qed.

Lemma tables_mirror_witness :
  8 <= 16 /\ 0 <= 6 < 256 /\
  exists Tf Tr i' t r,
    _mkTable 69665 16 = Ok Tf /\ _mkTable_r 69665 16 = Ok Tr /\
    _bitrev 6 8 = Ok i' /\ nth_error Tf (Z.to_nat i') = Some t /\
    _bitrev t 16 = Ok r /\ nth_error Tr (Z.to_nat 6) = Some r.
Proof.
  split; [lia |]. split; [lia |]. apply (tables_mirror 69665 16 6); lia.
Defined.

(** ** Table builders outside their domain *)

Lemma xrange_256_head : xrange 256 = 0 :: map Z.of_nat (seq 1 255).
Proof. reflexivity. Qed.

(** X6: The table builders leave the check of [n] to their caller:
    [_mkTable] returns a table exactly when [n >= 8], [_mkTable_r] exactly
    when [n >= 0], and otherwise they raise the error of a negative shift
    count. *)
Theorem table_builders_domain (poly n : Z) :
  (if 8 <=? n then exists T, _mkTable poly n = Ok T /\ List.length T = 256%nat
   else _mkTable poly n = Raise (ValueError "negative shift count")) /\
  (if 0 <=? n then exists T, _mkTable_r poly n = Ok T /\ List.length T = 256%nat
   else _mkTable_r poly n = Raise (ValueError "negative shift count")).
Proof.
  split.
  - destruct (Z.leb_spec 8 n) as [Hge | Hlt].
    + eexists. split; [now apply _mkTable_ok |].
      now rewrite length_map, xrange_length.
    + unfold _mkTable, lshift at 1.
      destruct (Z.ltb_spec n 0) as [Hneg | Hpos]; [reflexivity |].
      cbn [bind]. rewrite xrange_256_head. cbn [mapM].
      unfold lshift at 1.
      destruct (Z.ltb_spec (n - 8) 0); [reflexivity | lia].
  - destruct (Z.leb_spec 0 n) as [Hge | Hlt].
    + eexists. split; [now apply _mkTable_r_ok |].
      now rewrite length_map, xrange_length.
    + unfold _mkTable_r, lshift at 1.
      destruct (Z.ltb_spec n 0); [reflexivity | lia].
Qed.

(** ** Construction reduces its arguments modulo [2^w] *)

(** X7: Engines built for the same polynomial and direction from initial
    values, and from final XOR values, that agree modulo [2^w] are the
    same engine; its [initCrc] and [xorOut] are the arguments reduced
    modulo [2^w], so that the default [initCrc = ~0] gives all bits
    set. *)
Theorem construction_modulo (poly w a a' x x' : Z) (rev : bool) :
  In w widths -> valid_poly poly w ->
  a mod 2 ^ w = a' mod 2 ^ w -> x mod 2 ^ w = x' mod 2 ^ w ->
  exists e,
    Crc.__init__ poly a rev x = Ok e /\
    Crc.__init__ poly a' rev x' = Ok e /\
    Crc.initCrc e = a mod 2 ^ w /\ Crc.xorOut e = x mod 2 ^ w /\
    Crc.crcValue e = Z.lxor (a mod 2 ^ w) (x mod 2 ^ w) /\
    (a = Z.lnot 0 -> Crc.initCrc e = 2 ^ w - 1).
Proof.
  intros Hw Hvalid Ha Hx.
  pose proof (widths_ge_8 w Hw) as Hge.
  assert (Hsize : _verifyPoly poly = Ok w).
  { pose proof (_verifyPoly_spec poly) as Hspec.
    destruct (_verifyPoly poly) as [size | ex].
    - destruct Hspec as [Hin Hv]. f_equal.
      apply (valid_poly_unique poly size w); try assumption; [| lia].
      pose proof (widths_ge_8 size Hin). lia.
    - destruct Hspec as [_ Hnone]. exfalso. exact (Hnone w Hw Hvalid). }
  exists (engine_of poly a rev x w).
  split; [now apply __init___ok |].
  split.
  - rewrite (__init___ok _ _ _ _ w Hsize). unfold engine_of.
    rewrite !Z.land_ones by lia. now rewrite Ha, Hx.
  - unfold engine_of. cbn [Crc.initCrc Crc.xorOut Crc.crcValue].
    rewrite !Z.land_ones by lia.
    repeat split; try reflexivity.
    intros ->. change (Z.lnot 0) with (-1).
    assert (H2 : 0 < 2 ^ w) by (apply Z.pow_pos_nonneg; lia).
    symmetry. apply (Z.mod_unique _ _ (-1)); lia.
Qed.

Lemma construction_modulo_witness :
  In 8 widths /\ valid_poly 263 8 /\
  (-1) mod 2 ^ 8 = 255 mod 2 ^ 8 /\ 256 mod 2 ^ 8 = 0 mod 2 ^ 8 /\
  exists e,
    Crc.__init__ 263 (-1) true 256 = Ok e /\
    Crc.__init__ 263 255 true 0 = Ok e /\
    Crc.initCrc e = (-1) mod 2 ^ 8 /\ Crc.xorOut e = 256 mod 2 ^ 8 /\
    Crc.crcValue e = Z.lxor ((-1) mod 2 ^ 8) (256 mod 2 ^ 8) /\
    (-1 = Z.lnot 0 -> Crc.initCrc e = 2 ^ 8 - 1).
Proof.
  assert (Hw : In 8 widths) by (simpl; auto).
  assert (Hp : valid_poly 263 8) by (unfold valid_poly; simpl; lia).
  assert (Ha : (-1) mod 2 ^ 8 = 255 mod 2 ^ 8) by reflexivity.
  assert (Hx : 256 mod 2 ^ 8 = 0 mod 2 ^ 8) by reflexivity.
  split; [exact Hw |]. split; [exact Hp |].
  split; [exact Ha |]. split; [exact Hx |].
  exact (construction_modulo 263 8 (-1) 255 256 0 true Hw Hp Ha Hx).
Defined.

(** ** The digest of any state *)

(** X8: Whatever the attributes of the instance hold, [digest] raises
    nothing, changes nothing and returns [digest_size] bytes (none when
    [digest_size <= 0]): the big-endian encoding of [crcValue] reduced
    modulo [256^digest_size], which also covers negative values;
    [hexdigest] returns two characters per byte, and they decode to
    these bytes. *)
Theorem digest_truncates (e : Crc.t) :
  exists bs s,
    Crc.digest e = Ok (bs, e) /\
    List.length bs = Z.to_nat (Crc.digest_size e) /\
    big_endian bs = Crc.crcValue e mod 256 ^ Z.max 0 (Crc.digest_size e) /\
    Crc.hexdigest e = Ok (s, e) /\
    String.length s = (2 * List.length bs)%nat /\
    unhexlify s = Some bs.
Proof.
  pose proof (hex_of_values
                (rev (le_values (Z.to_nat (Crc.digest_size e))
                                (Crc.crcValue e)))) as Hhex.
  cbv zeta in Hhex.
  destruct Hhex as [Hlen [_ Hdec]].
  { apply Forall_rev, le_values_range. }
  eexists. eexists.
  split; [apply digest_eq |].
  split; [now rewrite length_rev, length_map, le_values_length |].
  split.
  - rewrite big_endian_le_values. f_equal.
    change 256 with (2 ^ 8). rewrite <- Z.pow_mul_r by lia.
    f_equal. lia.
  - split; [apply hexdigest_eq |]. split.
    + rewrite Hlen. now rewrite !length_rev, length_map.
    + rewrite Hdec. now rewrite map_rev.
Qed.

(** ** Reset and copy *)

Lemma update_shape (e e' : Crc.t) (data : list byte) :
  Crc.update data e = Ok (tt, e') ->
  exists v, e' = Crc.set_crcValue e v.
Proof.
  unfold Crc.update.
  destruct (Crc._crc e data _) as [c | ex]; [| discriminate].
  cbn [bind]. intros [= <-]. eexists. reflexivity.
Qed.

Lemma updated_shape (e0 e : Crc.t) :
  updated e0 e -> exists v, e = Crc.set_crcValue e0 v.
Proof.
  induction 1 as [| e1 data e2 _ [v ->] Hupd].
  - exists (Crc.crcValue e0). now destruct e0.
  - apply update_shape in Hupd. destruct Hupd as [v' ->].
    exists v'. reflexivity.
Qed.

(** X9: After any number of updates, whatever they computed, [new()] returns
    exactly the engine the constructor had built, and [copy()] returns an
    engine equal to the current one; neither changes the engine it is
    called on. *)
Theorem new_restores_copy_keeps (poly initCrc : Z) (rev : bool) (xorOut : Z)
  (e0 e : Crc.t) :
  Crc.__init__ poly initCrc rev xorOut = Ok e0 -> updated e0 e ->
  Crc.new None e = Ok (e0, e) /\ Crc.copy e = Ok (e, e).
Proof.
  intros Hinit Hupd.
  destruct (updated_shape e0 e Hupd) as [v ->].
  split.
  - rewrite new_None. do 2 f_equal.
    unfold Crc.__init__ in Hinit.
    destruct (_mkCrcFun poly initCrc xorOut rev) as [x | ex];
      [| discriminate].
    cbn [bind] in Hinit. injection Hinit as <-. reflexivity.
  - unfold Crc.copy. rewrite new_None. reflexivity.
Qed.

Lemma new_restores_copy_keeps_witness :
  Crc.__init__ 263 0 false 0 = Ok (engine_of 263 0 false 0 8) /\
  updated (engine_of 263 0 false 0 8)
          (Crc.set_crcValue (engine_of 263 0 false 0 8) 7) /\
  Crc.new None (Crc.set_crcValue (engine_of 263 0 false 0 8) 7)
  = Ok (engine_of 263 0 false 0 8,
        Crc.set_crcValue (engine_of 263 0 false 0 8) 7) /\
  Crc.copy (Crc.set_crcValue (engine_of 263 0 false 0 8) 7)
  = Ok (Crc.set_crcValue (engine_of 263 0 false 0 8) 7,
        Crc.set_crcValue (engine_of 263 0 false 0 8) 7).
Proof.
  assert (Hinit : Crc.__init__ 263 0 false 0
                  = Ok (engine_of 263 0 false 0 8)).
  { apply __init___ok. reflexivity. }
  assert (Hupd : updated (engine_of 263 0 false 0 8)
                         (Crc.set_crcValue (engine_of 263 0 false 0 8) 7)).
  { apply (updated_step _ (engine_of 263 0 false 0 8) [x01%byte]).
    - apply updated_refl.
    - vm_compute. reflexivity. }
  split; [exact Hinit |]. split; [exact Hupd |].
  exact (new_restores_copy_keeps 263 0 false 0 _ _ Hinit Hupd).
Defined.

(** ** The function of [mkCrcFun] and the class *)

Lemma mkCrcFun_ok (poly initCrc : Z) (rev : bool) (size : Z) :
  _verifyPoly poly = Ok size ->
  mkCrcFun poly (Some initCrc) (Some rev)
  = Ok (Crc._crc (engine_of poly initCrc rev 0 size)).
Proof.
  intros Hsize.
  assert (Hw : In size widths).
  { pose proof (_verifyPoly_spec poly) as H. rewrite Hsize in H. apply H. }
  pose proof (widths_ge_8 size Hw) as Hge.
  unfold mkCrcFun, _mkCrcFun. rewrite Hsize. cbn [bind].
  rewrite lshift_one by lia. cbn [bind]. rewrite mask_ones.
  destruct rev.
  - rewrite _mkTable_r_ok by lia. cbn [bind].
    rewrite _sizeMap_ok by assumption. reflexivity.
  - rewrite _mkTable_ok by lia. cbn [bind].
    rewrite _sizeMap_ok by assumption. reflexivity.
Qed.

(** X10: [mkCrcFun] raises the error of [_verifyPoly] for a polynomial of no
    supported degree.  Otherwise it returns a function, and an engine
    built with the same arguments and [xorOut = 0] computes with it:
    [update(data)] on the fresh engine sets [crcValue] to what the
    function returns for [data] with its default start value, and raises
    what the function raises. *)
Theorem mkCrcFun_is_update (poly initCrc : Z) (rev : bool) :
  ((forall w, In w widths -> ~ valid_poly poly w) ->
   mkCrcFun poly (Some initCrc) (Some rev) = Raise InvalidPolynomial) /\
  (forall w, In w widths -> valid_poly poly w ->
   exists f e,
     mkCrcFun poly (Some initCrc) (Some rev) = Ok f /\
     Crc.__init__ poly initCrc rev 0 = Ok e /\
     forall data,
       Crc.update data e
       = (c <- f data None ;; Ok (tt, Crc.set_crcValue e c))).
Proof.
  pose proof (_verifyPoly_spec poly) as Hspec.
  split.
  - intros Hnone.
    destruct (_verifyPoly poly) as [size | ex] eqn:Hv.
    + exfalso. destruct Hspec as [Hin Hvalid]. exact (Hnone size Hin Hvalid).
    + destruct Hspec as [-> _]. unfold mkCrcFun, _mkCrcFun. now rewrite Hv.
  - intros w Hw Hvalid.
    assert (Hsize : _verifyPoly poly = Ok w).
    { destruct (_verifyPoly poly) as [size | ex].
      - destruct Hspec as [Hin Hv]. f_equal.
        apply (valid_poly_unique poly size w); try assumption.
        + pose proof (widths_ge_8 size Hin). lia.
        + pose proof (widths_ge_8 w Hw). lia.
      - destruct Hspec as [_ Hnone]. exfalso. exact (Hnone w Hw Hvalid). }
    exists (Crc._crc (engine_of poly initCrc rev 0 w)).
    exists (engine_of poly initCrc rev 0 w).
    split; [now apply mkCrcFun_ok |].
    split; [now apply __init___ok |].
    intros data. unfold Crc.update.
    cbn [engine_of Crc._crc Crc.xorOut Crc.crcValue].
    rewrite Z.land_0_l, Z.lxor_0_l, Z.lxor_0_r.
    destruct (engine_fun w rev data (Z.land initCrc (Z.ones w))
                (table_of poly w rev)) as [c | ex]; cbn [bind].
    + now rewrite Z.lxor_0_l.
    + reflexivity.
Qed.

Lemma mkCrcFun_is_update_witness :
  In 8 widths /\ valid_poly 263 8 /\
  exists f e,
    mkCrcFun 263 (Some 85) (Some false) = Ok f /\
    Crc.__init__ 263 85 false 0 = Ok e /\
    forall data,
      Crc.update data e
      = (c <- f data None ;; Ok (tt, Crc.set_crcValue e c)).
Proof.
  assert (Hw : In 8 widths) by (simpl; auto).
  assert (Hp : valid_poly 263 8) by (unfold valid_poly; simpl; lia).
  split; [exact Hw |]. split; [exact Hp |].
  exact (proj2 (mkCrcFun_is_update 263 85 false) 8 Hw Hp).
Defined.

(** ** Hexadecimal formatting *)

Lemma hex_value_from_app (s1 s2 : string) : forall acc,
  hex_value_from (s1 ++ s2) acc =
  match hex_value_from s1 acc with
  | Some acc' => hex_value_from s2 acc'
  | None => None
  end.
Proof.
  induction s1 as [| c s1 IH]; intros acc; simpl; [reflexivity |].
  destruct (unhex_digit c); [apply IH | reflexivity].
Qed.

Lemma string_app_assoc (a b c : string) :
  ((a ++ b) ++ c = a ++ (b ++ c))%string.
Proof. induction a as [| x a IH]; simpl; [reflexivity | now rewrite IH]. Qed.

Lemma string_app_length (a b : string) :
  String.length (a ++ b) = (String.length a + String.length b)%nat.
Proof. induction a as [| x a IH]; simpl; [reflexivity | now rewrite IH]. Qed.

Lemma list_ascii_app (a b : string) :
  list_ascii_of_string (a ++ b)
  = list_ascii_of_string a ++ list_ascii_of_string b.
Proof. induction a as [| x a IH]; simpl; [reflexivity | now rewrite IH]. Qed.

Lemma to_hex_acc (fuel : nat) : forall v acc,
  to_hex fuel v acc = (to_hex fuel v "" ++ acc)%string.
Proof.
  induction fuel as [| fuel IH]; intros v acc; simpl; [reflexivity |].
  destruct (v / 16 =? 0); [reflexivity |].
  rewrite IH, (IH _ (String _ EmptyString)), string_app_assoc.
  reflexivity.
Qed.

Lemma digit_range (v : Z) : 0 <= v mod 16 < 16.
Proof. apply Z.mod_pos_bound. lia. Qed.

Lemma to_hex_value (fuel : nat) : forall v,
  0 <= v < 16 ^ Z.of_nat fuel -> hex_value (to_hex fuel v "") = Some v.
Proof.
  unfold hex_value.
  induction fuel as [| fuel IH]; intros v Hv.
  - simpl in *. f_equal. lia.
  - cbn [to_hex].
    pose proof (digit_range v) as Hd.
    destruct (unhex_hexdigit _ Hd) as [Hun _].
    pose proof (Z.div_mod v 16 ltac:(lia)) as Hdm.
    destruct (Z.eqb_spec (v / 16) 0) as [Hz | Hnz].
    + cbn [hex_value_from]. rewrite Hun. cbn [hex_value_from].
      f_equal. lia.
    + rewrite to_hex_acc, hex_value_from_app.
      rewrite IH.
      * cbn [hex_value_from]. rewrite Hun. f_equal. lia.
      * split; [apply Z.div_pos; lia |].
        apply Z.div_lt_upper_bound; [lia |].
        rewrite Nat2Z.inj_succ, Z.pow_succ_r in Hv by lia. lia.
Qed.

Lemma to_hex_length (fuel : nat) : forall v (k : nat),
  (1 <= k)%nat -> 0 <= v < 16 ^ Z.of_nat k ->
  (String.length (to_hex fuel v "") <= k)%nat.
Proof.
  induction fuel as [| fuel IH]; intros v k Hk Hv; [simpl; lia |].
  cbn [to_hex].
  destruct (Z.eqb_spec (v / 16) 0) as [Hz | Hnz]; [simpl; lia |].
  rewrite to_hex_acc, string_app_length. cbn [String.length].
  assert (Hq : 0 < v / 16).
  { assert (0 <= v / 16) by (apply Z.div_pos; lia). lia. }
  assert (Hk2 : (2 <= k)%nat).
  { destruct k as [| [| k]]; [lia | | lia].
    exfalso. change (16 ^ Z.of_nat 1) with 16 in Hv.
    assert (v / 16 <= 0); [| lia].
    assert (v / 16 < 1); [| lia].
    apply Z.div_lt_upper_bound; lia. }
  specialize (IH (v / 16) (k - 1)%nat ltac:(lia)).
  assert (String.length (to_hex fuel (v / 16) "") <= k - 1)%nat; [| lia].
  apply IH. split; [lia |].
  apply Z.div_lt_upper_bound; [lia |].
  replace (Z.of_nat k) with (Z.succ (Z.of_nat (k - 1))) in Hv by lia.
  rewrite Z.pow_succ_r in Hv by lia. lia.
Qed.

Lemma to_hex_upper (fuel : nat) : forall v,
  Forall (fun c => is_upper_hex c = true)
         (list_ascii_of_string (to_hex fuel v "")).
Proof.
  induction fuel as [| fuel IH]; intros v; [constructor |].
  cbn [to_hex].
  destruct (unhex_hexdigit _ (digit_range v)) as [_ Hup].
  destruct (v / 16 =? 0).
  - repeat constructor. exact Hup.
  - rewrite to_hex_acc, list_ascii_app. apply Forall_app. split.
    + apply IH.
    + repeat constructor. exact Hup.
Qed.

Lemma enough_fuel (v : Z) :
  0 <= v -> v < 16 ^ Z.of_nat (S (Z.to_nat (Z.log2 v))).
Proof.
  intros Hv.
  pose proof (Z.log2_nonneg v) as Hlog.
  rewrite Nat2Z.inj_succ, Z2Nat.id by lia.
  apply Z.lt_le_trans with (2 ^ Z.succ (Z.log2 v)).
  - destruct (Z.eq_dec v 0) as [-> | Hnz]; [reflexivity |].
    apply Z.log2_spec. lia.
  - change 16 with (2 ^ 4). rewrite <- Z.pow_mul_r by lia.
    apply Z.pow_le_mono_r; lia.
Qed.

Lemma zfill_spec (w : nat) (s : string) :
  String.length (zfill w s) = Nat.max w (String.length s) /\
  hex_value (zfill w s) = hex_value s /\
  (Forall (fun c => is_upper_hex c = true) (list_ascii_of_string s) ->
   Forall (fun c => is_upper_hex c = true) (list_ascii_of_string (zfill w s))).
Proof.
  unfold zfill.
  induction (w - String.length s)%nat as [| k IH] eqn:Hk in w |- *.
  - simpl. split; [lia |]. split; [reflexivity | trivial].
  - cbn [Nat.iter nat_rect].
    destruct (IH (w - 1)%nat) as [Hlen [Hval Hup]]; [lia |].
    unfold Nat.iter in Hlen, Hval, Hup.
    replace (w - 1 - String.length s)%nat with k in * by lia.
    cbn [String.length]. split; [rewrite Hlen; lia |].
    split.
    + unfold hex_value in *. cbn [hex_value_from]. exact Hval.
    + intros Hs. cbn [list_ascii_of_string].
      constructor; [reflexivity | now apply Hup].
Qed.

(** A value that fits in [N >= 1] hexadecimal digits is written with
    exactly [N] upper-case digits, which read back as the value. *)
Lemma format_0NX_spec (N v : Z) :
  1 <= N -> 0 <= v < 16 ^ N ->
  String.length (format_0NX N v) = Z.to_nat N /\
  Forall (fun c => is_upper_hex c = true)
         (list_ascii_of_string (format_0NX N v)) /\
  hex_value (format_0NX N v) = Some v.
Proof.
  intros HN Hv. unfold format_0NX. cbv zeta.
  destruct (Z.ltb_spec N 0) as [Hneg | _]; [lia |].
  destruct (Z.ltb_spec v 0) as [Hneg | _]; [lia |].
  rewrite Z.abs_eq by lia.
  set (digits := to_hex (S (Z.to_nat (Z.log2 v))) v "").
  destruct (zfill_spec (Z.to_nat N) digits) as [Hlen [Hval Hup]].
  assert (Hfit : (String.length digits <= Z.to_nat N)%nat).
  { apply to_hex_length; [lia |]. rewrite Z2Nat.id by lia. exact Hv. }
  split; [rewrite Hlen; lia |].
  split; [apply Hup, to_hex_upper |].
  rewrite Hval. apply to_hex_value. split; [lia | apply enough_fuel; lia].
Qed.

(** ** What updates cannot change *)

(** An engine built by the constructor and then updated, whatever the
    updates computed, is the engine of its polynomial with another
    [crcValue]. *)
Lemma built_then_updated (poly initCrc : Z) (rev : bool) (xorOut : Z)
  (e0 e : Crc.t) :
  Crc.__init__ poly initCrc rev xorOut = Ok e0 -> updated e0 e ->
  exists w v,
    In w widths /\ valid_poly poly w /\
    e0 = engine_of poly initCrc rev xorOut w /\
    e = Crc.set_crcValue e0 v.
Proof.
  intros Hinit Hupd.
  destruct (updated_shape e0 e Hupd) as [v Hv].
  pose proof (_verifyPoly_spec poly) as Hspec.
  destruct (_verifyPoly poly) as [size | ex] eqn:Hsize.
  - rewrite (__init___ok _ _ _ _ size Hsize) in Hinit.
    injection Hinit as <-. destruct Hspec as [Hin Hvalid].
    now exists size, v.
  - rewrite (__init___raises _ _ _ _ ex Hsize) in Hinit. discriminate.
Qed.



(** ** Generated code *)




Lemma wf_digest_size (e : Crc.t) :
  wf e -> In (Crc.digest_size e) digest_sizes.
Proof.
  intros He. pose proof (wf_width e He) as Hw.
  unfold Crc.width, widths in Hw. unfold digest_sizes.
  cbn [In] in *.
  destruct Hw as [H | [H | [H | [H | [H | []]]]]].
  - left. lia.
  - right. left. lia.
  - right. right. left. lia.
  - right. right. right. left. lia.
  - right. right. right. right. left. lia.
Qed.

(** X11: [generateCode] finds the number of entries per row in a dictionary
    keyed by [digest_size]: for a state whose [digest_size] is not 1, 2,
    3, 4 or 8 it raises [KeyError] and writes nothing; otherwise, and so
    for every engine built by the constructor and updated any number of
    times, it appends one text to [out] and leaves the engine as it
    was. *)
Theorem generateCode_keys (functionName out : string)
  (dataType crcType : option string) (e : Crc.t) :
  (if existsb (Z.eqb (Crc.digest_size e)) digest_sizes
   then exists text,
     generateCode functionName out dataType crcType e
     = Ok ((out ++ text)%string, e)
   else generateCode functionName out dataType crcType e
        = Raise (KeyError (Crc.digest_size e))) /\
  (forall poly initCrc rev xorOut e0,
     Crc.__init__ poly initCrc rev xorOut = Ok e0 -> updated e0 e ->
     exists text,
       generateCode functionName out dataType crcType e
       = Ok ((out ++ text)%string, e)).
Proof.
  assert (Hcases :
    if existsb (Z.eqb (Crc.digest_size e)) digest_sizes
    then exists text,
      generateCode functionName out dataType crcType e
      = Ok ((out ++ text)%string, e)
    else generateCode functionName out dataType crcType e
         = Raise (KeyError (Crc.digest_size e))).
  { unfold generateCode, generateCode_lst, entries_per_row, digest_sizes.
    cbn [existsb].
    destruct (Crc.digest_size e =? 1); [eexists; reflexivity |].
    destruct (Crc.digest_size e =? 2); [eexists; reflexivity |].
    destruct (Crc.digest_size e =? 3) eqn:H3.
    { cbn [orb bind]. eexists. reflexivity. }
    destruct (Crc.digest_size e =? 4); [eexists; reflexivity |].
    destruct (Crc.digest_size e =? 8); [eexists; reflexivity |].
    reflexivity. }
  split; [exact Hcases |].
  intros poly initCrc rev xorOut e0 Hinit Hupd.
  destruct (built_then_updated _ _ _ _ _ _ Hinit Hupd)
    as [w [v [Hw [_ [He0 He]]]]].
  assert (Hin : In (Crc.digest_size e) digest_sizes).
  { subst e e0. apply (wf_digest_size (engine_of poly initCrc rev xorOut w)).
    now apply wf_engine_of. }
  replace (existsb (Z.eqb (Crc.digest_size e)) digest_sizes) with true
    in Hcases; [exact Hcases |].
  symmetry. apply existsb_exists.
  exists (Crc.digest_size e). split; [exact Hin | apply Z.eqb_refl].
Qed.



(** ** Names of the registry *)

(** The characters of a name after lower-casing and removal of dashes
    and spaces. *)
Lemma chars_of_list (l : list ascii) :
  list_ascii_of_string (string_of_list_ascii l) = l.
Proof. apply list_ascii_of_string_of_list_ascii. Qed.

Lemma lower_ascii_not_upper (c : ascii) : is_upper (lower_ascii c) = false.
Proof. destruct c as [[] [] [] [] [] [] [] []]; reflexivity. Qed.

Lemma lower_ascii_idempotent (c : ascii) :
  lower_ascii (lower_ascii c) = lower_ascii c.
Proof. destruct c as [[] [] [] [] [] [] [] []]; reflexivity. Qed.

Lemma lower_ascii_keeps_marks (c : ascii) :
  Ascii.eqb (lower_ascii c) "-" = Ascii.eqb c "-" /\
  Ascii.eqb (lower_ascii c) " " = Ascii.eqb c " ".
Proof. destruct c as [[] [] [] [] [] [] [] []]; split; reflexivity. Qed.

Lemma stripped_chars (s : string) :
  remove_char " " (remove_char "-" (lower s))
  = string_of_list_ascii
      (filter (keep " ") (filter (keep "-")
         (map lower_ascii (list_ascii_of_string s)))).
Proof.
  unfold remove_char, lower. now rewrite !chars_of_list.
Qed.

Lemma _simplify_name_eq (s : string) :
  _simplify_name s =
  let name := string_of_list_ascii
                (filter (keep " ") (filter (keep "-")
                   (map lower_ascii (list_ascii_of_string s)))) in
  if String.prefix "crc" name then drop 3 name else name.
Proof.
  unfold _simplify_name. cbv zeta. now rewrite stripped_chars.
Qed.

Lemma filter_marks_lowered (l : list ascii) :
  filter (keep " ") (filter (keep "-") (map lower_ascii (map lower_ascii l)))
  = filter (keep " ") (filter (keep "-") (map lower_ascii l)).
Proof.
  rewrite map_map. f_equal. f_equal.
  apply map_ext. intros c. apply lower_ascii_idempotent.
Qed.

Lemma filter_marks_without (mark : ascii) (l : list ascii) :
  mark = "-"%char \/ mark = " "%char ->
  filter (keep " ") (filter (keep "-")
    (map lower_ascii (filter (keep mark) l)))
  = filter (keep " ") (filter (keep "-") (map lower_ascii l)).
Proof.
  intros Hmark. induction l as [| c l IH]; [reflexivity |].
  cbn [filter map].
  destruct (keep mark c) eqn:Hkeep.
  - cbn [map filter].
    destruct (keep "-" (lower_ascii c)); cbn [filter];
      [destruct (keep " " (lower_ascii c)) |]; now rewrite IH.
  - rewrite IH. unfold keep in Hkeep.
    apply negb_false_iff, Ascii.eqb_eq in Hkeep. subst c.
    destruct Hmark as [-> | ->]; reflexivity.
Qed.

(** X13: [_simplify_name] returns a name without upper-case letters, dashes
    and spaces, and it gives the same key to names that differ in case,
    dashes and spaces only. *)
Theorem _simplify_name_normalises (s : string) :
  Forall (fun c => is_plain c = true)
         (list_ascii_of_string (_simplify_name s)) /\
  _simplify_name (lower s) = _simplify_name s /\
  _simplify_name (remove_char "-" s) = _simplify_name s /\
  _simplify_name (remove_char " " s) = _simplify_name s.
Proof.
  split; [| split; [| split]].
  - rewrite _simplify_name_eq. cbv zeta.
    set (l := filter (keep " ") (filter (keep "-")
                (map lower_ascii (list_ascii_of_string s)))).
    assert (Hl : Forall (fun c => is_plain c = true) l).
    { apply Forall_forall. intros c Hc. unfold l in Hc.
      apply filter_In in Hc. destruct Hc as [Hc Hspace].
      apply filter_In in Hc. destruct Hc as [Hc Hdash].
      apply in_map_iff in Hc. destruct Hc as [c' [<- _]].
      unfold is_plain, keep in *.
      now rewrite lower_ascii_not_upper, Hdash, Hspace. }
    destruct (String.prefix "crc" (string_of_list_ascii l)).
    + unfold drop. rewrite !chars_of_list.
      rewrite <- (firstn_skipn 3 l) in Hl.
      apply Forall_app in Hl. apply Hl.
    + now rewrite chars_of_list.
  - rewrite !_simplify_name_eq. cbv zeta.
    unfold lower. now rewrite chars_of_list, filter_marks_lowered.
  - rewrite !_simplify_name_eq. cbv zeta.
    unfold remove_char. rewrite chars_of_list.
    fold (keep "-"). now rewrite filter_marks_without by (now left).
  - rewrite !_simplify_name_eq. cbv zeta.
    unfold remove_char. rewrite chars_of_list.
    fold (keep " "). now rewrite filter_marks_without by (now right).
Qed.

(** ** Loading the registry *)

Lemma dict_contains_keys (k : string) (d : dict) :
  dict_contains k d = true <-> In k (map fst d).
Proof.
  unfold dict_contains. induction d as [| [k' v] d IH]; simpl.
  - split; [discriminate | intros []].
  - destruct (String.eqb_spec k k') as [-> | Hne].
    + split; [now left | reflexivity].
    + rewrite IH. split; [now right |].
      intros [Heq | Hin]; [congruence | exact Hin].
Qed.

Lemma dict_get_absent (k : string) (d : dict) :
  ~ In k (map fst d) -> dict_get k d = None.
Proof.
  intros Hk. pose proof (dict_contains_keys k d) as H.
  unfold dict_contains in H.
  destruct (dict_get k d); [| reflexivity].
  exfalso. apply Hk, H. reflexivity.
Qed.

(** In a dictionary filled from rows with distinct keys, the key of a
    row finds that row. *)
Lemma dict_get_entries (rows : list crc_definition) (rest : dict)
  (d : crc_definition) :
  NoDup (map name_key rows) -> In d rows ->
  dict_get (name_key d) (map name_entry rows ++ rest) = Some d.
Proof.
  induction rows as [| a rows IH]; intros Hnodup Hin; [destruct Hin |].
  cbn [map app dict_get name_entry].
  inversion Hnodup as [| ? ? Hfresh Hnodup']; subst.
  destruct (String.eqb_spec (name_key d) (name_key a)) as [Heq | Hne].
  - destruct Hin as [-> | Hin]; [reflexivity |].
    exfalso. apply Hfresh. rewrite <- Heq. now apply in_map.
  - destruct Hin as [-> | Hin]; [congruence |].
    now apply IH.
Qed.

(** What the loading loop does from a registry [r]. *)
Lemma registry_for_spec (rows : list crc_definition) : forall r,
  match registry_for rows r with
  | Returns r' =>
      NoDup (map name_key rows) /\
      (forall d, In d rows ->
                 ~ In (name_key d) (map fst (_crc_definitions_by_name r))) /\
      _crc_definitions_by_name r'
      = map name_entry (rev rows) ++ _crc_definitions_by_name r /\
      _crc_definitions_by_identifier r'
      = map identifier_entry (rev rows) ++ _crc_definitions_by_identifier r /\
      _crc_definitions r' = _crc_definitions r ++ rows
  | Raises e =>
      ~ (NoDup (map name_key rows) /\
         forall d, In d rows ->
                   ~ In (name_key d) (map fst (_crc_definitions_by_name r)))
      /\ exists d, In d rows /\
           e = Exception ("Duplicate entry for '" ++ name_key d
                          ++ "' in CRC table")%string
  end.
Proof.
  induction rows as [| a rows IH]; intros r.
  - simpl. repeat split; try constructor.
    + intros d [].
    + now rewrite app_nil_r.
  - cbn [registry_for]. fold (name_key a).
    destruct (dict_contains (name_key a) (_crc_definitions_by_name r))
      eqn:Hseen.
    + apply dict_contains_keys in Hseen. split.
      * intros [_ Hfresh]. apply (Hfresh a); [now left | exact Hseen].
      * exists a. split; [now left | reflexivity].
    + assert (Hnew : ~ In (name_key a)
                        (map fst (_crc_definitions_by_name r))).
      { intros Hin. apply dict_contains_keys in Hin. congruence. }
      specialize (IH (Registry
                        (dict_set (name_key a) a (_crc_definitions_by_name r))
                        (dict_set (def_identifier a) a
                           (_crc_definitions_by_identifier r))
                        (_crc_definitions r ++ [a]))).
      destruct (registry_for rows _) as [r' | e].
      * cbn [_crc_definitions_by_name _crc_definitions_by_identifier
             _crc_definitions dict_set map fst] in IH.
        destruct IH as [Hnodup [Hfresh [Hname [Hident Hdefs]]]].
        split; [| split; [| split; [| split]]].
        -- cbn [map]. constructor; [| exact Hnodup].
           intros Hin. apply in_map_iff in Hin.
           destruct Hin as [d [Hkey Hd]].
           apply (Hfresh d Hd). left. now symmetry.
        -- intros d [<- | Hd]; [exact Hnew |].
           intros Hin. apply (Hfresh d Hd). now right.
        -- rewrite Hname. cbn [rev]. rewrite map_app, <- app_assoc.
           reflexivity.
        -- rewrite Hident. cbn [rev]. rewrite map_app, <- app_assoc.
           reflexivity.
        -- rewrite Hdefs, <- app_assoc. reflexivity.
      * cbn [_crc_definitions_by_name dict_set map fst] in IH.
        destruct IH as [Hbad [d [Hd He]]]. split.
        -- intros [Hnodup Hfresh]. apply Hbad.
           cbn [map] in Hnodup.
           inversion Hnodup as [| ? ? Ha Hnodup']; subst.
           split; [exact Hnodup' |].
           intros d' Hd' [Heq | Hin].
           ++ apply Ha. rewrite Heq. now apply in_map.
           ++ apply (Hfresh d'); [now right | exact Hin].
        -- exists d. split; [now right | exact He].
Qed.

Lemma registry_for_lookup (rows : list crc_definition) (r : registry) :
  registry_for rows empty_registry = Returns r ->
  forall d s,
    In d rows -> _simplify_name s = name_key d ->
    _get_definition_by_name r s = Returns d.
Proof.
  intros Hload d s Hd Hkey.
  pose proof (registry_for_spec rows empty_registry) as Hspec.
  rewrite Hload in Hspec.
  cbn [empty_registry _crc_definitions_by_name app] in Hspec.
  destruct Hspec as [Hnodup [_ [Hname _]]].
  unfold _get_definition_by_name.
  rewrite Hkey, Hname, dict_get_entries; [reflexivity | |].
  - rewrite map_rev. apply NoDup_rev, Hnodup.
  - apply in_rev in Hd. exact Hd.
Qed.

(** X14: Loading a table of definitions succeeds exactly when the simplified
    names of its rows are pairwise distinct, and raises [Exception] for a
    duplicate otherwise.  In the loaded registry the list of definitions
    is the table, and every name that simplifies to the key of a row finds
    that row: a look-up by the name of a row returns the row. *)
Theorem registry_round_trip (rows : list crc_definition) :
  match registry_for rows empty_registry with
  | Returns r =>
      NoDup (map name_key rows) /\
      _crc_definitions r = rows /\
      forall d s,
        In d rows -> _simplify_name s = name_key d ->
        _get_definition_by_name r s = Returns d
  | Raises e =>
      ~ NoDup (map name_key rows) /\
      exists d, In d rows /\
        e = Exception ("Duplicate entry for '" ++ name_key d
                       ++ "' in CRC table")%string
  end.
Proof.
  pose proof (registry_for_spec rows empty_registry) as Hspec.
  pose proof (registry_for_lookup rows) as Hlookup.
  destruct (registry_for rows empty_registry) as [r | e].
  - cbn [empty_registry _crc_definitions_by_name
         _crc_definitions_by_identifier _crc_definitions app] in Hspec.
    destruct Hspec as [Hnodup [_ [_ [_ Hdefs]]]].
    split; [exact Hnodup |]. split; [exact Hdefs |].
    now apply Hlookup.
  - destruct Hspec as [Hbad Hdup]. split; [| exact Hdup].
    intros Hnodup. apply Hbad. split; [exact Hnodup |].
    intros d _ [].
Qed.

(** ** Predefined engines *)

Lemma registry_loaded :
  registry_for _crc_definitions_table empty_registry = Returns loaded_registry.
Proof. vm_compute. reflexivity. Qed.

Lemma loaded_lookup (d : crc_definition) :
  In d _crc_definitions_table ->
  _get_definition_by_name loaded_registry (def_name d) = Returns d.
Proof.
  intros Hd.
  now apply (registry_for_lookup _crc_definitions_table _ registry_loaded).
Qed.

Lemma valid_polyb_true (poly n : Z) :
  valid_polyb poly n = true -> valid_poly poly n.
Proof.
  unfold valid_polyb, valid_poly. intros H.
  apply andb_prop in H. destruct H as [Hl Hh].
  split; [now apply Z.leb_le | now apply Z.ltb_lt].
Qed.

Lemma registry_degrees :
  forallb (fun d => existsb (valid_polyb (def_poly d)) widths)
          (firstn 19 _crc_definitions_table) = true /\
  forallb (fun d => negb (existsb (valid_polyb (def_poly d)) widths))
          (skipn 19 _crc_definitions_table) = true.
Proof. split; vm_compute; reflexivity. Qed.

(** X15: [PredefinedCrc] on the name of a row of the table builds the engine
    of that row's parameters, and so succeeds exactly when the polynomial
    of the row has degree 8, 16, 24, 32 or 64: it does for the first 19
    rows, and for the 13 rows of other widths (crc-3-rohc to crc-40-gsm)
    it raises the error of [_verifyPoly]. *)
Theorem PredefinedCrc_rows (d : crc_definition) :
  In d _crc_definitions_table ->
  ((exists e, PredefinedCrc loaded_registry (def_name d) = Returns e /\
              Crc.__init__ (def_poly d) (def_init d) (def_reverse d)
                (def_xor_out d) = Ok e)
   <-> exists w, In w widths /\ valid_poly (def_poly d) w) /\
  (In d (firstn 19 _crc_definitions_table) ->
   exists e, PredefinedCrc loaded_registry (def_name d) = Returns e) /\
  (In d (skipn 19 _crc_definitions_table) ->
   PredefinedCrc loaded_registry (def_name d)
   = Raises (FromCrcmod InvalidPolynomial)).
Proof.
  intros Hd. unfold PredefinedCrc. rewrite (loaded_lookup d Hd).
  pose proof (_verifyPoly_spec (def_poly d)) as Hspec.
  destruct (_verifyPoly (def_poly d)) as [size | ex] eqn:Hv.
  - destruct Hspec as [Hin Hvalid].
    rewrite (__init___ok _ (def_init d) (def_reverse d) (def_xor_out d) _ Hv).
    split; [| split].
    + split.
      * intros _. now exists size.
      * intros _. eexists. split; reflexivity.
    + intros _. eexists. reflexivity.
    + intros Hlate. exfalso.
      destruct registry_degrees as [_ Hnone].
      rewrite forallb_forall in Hnone. specialize (Hnone d Hlate).
      apply negb_true_iff in Hnone.
      assert (Hsome : existsb (valid_polyb (def_poly d)) widths = true).
      { apply existsb_exists. exists size.
        split; [exact Hin | now apply valid_polyb_spec]. }
      congruence.
  - destruct Hspec as [-> Hnone].
    rewrite (__init___raises _ (def_init d) (def_reverse d) (def_xor_out d)
               _ Hv).
    split; [| split].
    + split.
      * intros [e [He _]]. discriminate.
      * intros [w [Hw Hvalid]]. exfalso. exact (Hnone w Hw Hvalid).
    + intros Hearly. exfalso.
      destruct registry_degrees as [Hall _].
      rewrite forallb_forall in Hall. specialize (Hall d Hearly).
      apply existsb_exists in Hall. destruct Hall as [w [Hw Hvalid]].
      exact (Hnone w Hw (valid_polyb_true _ _ Hvalid)).
    + reflexivity.
Qed.

Lemma PredefinedCrc_rows_witness :
  In (Definition_ "crc-7" "Crc7" 0x89 NON_REVERSE 0x00 0x00 0x75)
     _crc_definitions_table /\
  In (Definition_ "crc-7" "Crc7" 0x89 NON_REVERSE 0x00 0x00 0x75)
     (skipn 19 _crc_definitions_table) /\
  PredefinedCrc loaded_registry "crc-7"
  = Raises (FromCrcmod InvalidPolynomial).
Proof.
  assert (Hd : In (Definition_ "crc-7" "Crc7" 0x89 NON_REVERSE 0x00 0x00 0x75)
                  _crc_definitions_table).
  { simpl. auto 40. }
  assert (Hlate : In (Definition_ "crc-7" "Crc7" 0x89 NON_REVERSE 0x00 0x00 0x75)
                     (skipn 19 _crc_definitions_table)).
  { simpl. auto 20. }
  split; [exact Hd |]. split; [exact Hlate |].
  exact (proj2 (proj2 (PredefinedCrc_rows _ Hd)) Hlate).
Defined.

(** X16: [mkPredefinedCrcFun] never returns a function: for a name it does
    not find it raises [KeyError], and for every name it finds it raises
    [TypeError], because it passes the keyword [xorOut] to [mkCrcFun],
    which has no such parameter. *)
Theorem mkPredefinedCrcFun_raises (r : registry) (crc_name : string) :
  match _get_definition_by_name r crc_name with
  | Returns _ =>
      mkPredefinedCrcFun r crc_name
      = Raises (TypeError
                  "mkCrcFun() got an unexpected keyword argument 'xorOut'")
  | Raises e =>
      mkPredefinedCrcFun r crc_name = Raises e /\
      e = UnknownName ("Unkown CRC name '" ++ crc_name ++ "'")%string
  end.
Proof.
  unfold mkPredefinedCrcFun.
  destruct (_get_definition_by_name r crc_name) as [d | e] eqn:Hget.
  - reflexivity.
  - split; [reflexivity |].
    unfold _get_definition_by_name in Hget.
    destruct (dict_get _ (_crc_definitions_by_name r)); [discriminate |].
    destruct (dict_get _ (_crc_definitions_by_identifier r));
      [discriminate |].
    now injection Hget as <-.
Qed.

(** ** The byte steps mirror each other *)

(** X17: For [n >= 1] and any integers [crc] and [poly], [_bytecrc] returns a
    value within [0, 2^n), and the reversed step run on the bit reversals
    of [crc] and [poly] returns the bit reversal of that value. *)
Theorem byte_steps_mirror (crc poly n : Z) :
  1 <= n ->
  exists y rc rp ry,
    _bytecrc crc poly n = Ok y /\ 0 <= y < 2 ^ n /\
    _bitrev crc n = Ok rc /\ _bitrev poly n = Ok rp /\
    _bitrev y n = Ok ry /\ _bytecrc_r rc rp n = Ok ry.
Proof.
  intros Hn.
  exists (Z.land (Nat.iter 8 (forward_round n poly) crc) (Z.ones n)).
  exists (_bitrev_for (Z.to_nat n) crc 0), (_bitrev_for (Z.to_nat n) poly 0).
  eexists.
  split; [now apply _bytecrc_ok |].
  split; [apply land_ones_bound; lia |].
  split; [apply _bitrev_ok; lia |].
  split; [apply _bitrev_ok; lia |].
  split; [apply _bitrev_ok; lia |].
  rewrite _bytecrc_r_ok by lia. f_equal.
  rewrite mirror_land_ones by lia.
  rewrite <- mirror_iter by lia.
  apply land_ones_small; [lia |]. apply _bitrev_for_bound. lia.
Qed.

Lemma byte_steps_mirror_witness :
  1 <= 16 /\
  exists y rc rp ry,
    _bytecrc 4660 4129 16 = Ok y /\ 0 <= y < 2 ^ 16 /\
    _bitrev 4660 16 = Ok rc /\ _bitrev 4129 16 = Ok rp /\
    _bitrev y 16 = Ok ry /\ _bytecrc_r rc rp 16 = Ok ry.
Proof.
  split; [lia |]. apply (byte_steps_mirror 4660 4129 16). lia.
Defined.

(** ** The text of an engine *)

Lemma format_0NX_value (N v : Z) :
  0 <= N -> 0 <= v -> hex_value (format_0NX N v) = Some v.
Proof.
  intros HN Hv. unfold format_0NX. cbv zeta.
  destruct (Z.ltb_spec N 0) as [Hneg | _]; [lia |].
  destruct (Z.ltb_spec v 0) as [Hneg | _]; [lia |].
  rewrite Z.abs_eq by lia.
  destruct (zfill_spec (Z.to_nat N)
              (to_hex (S (Z.to_nat (Z.log2 v))) v "")) as [_ [Hval _]].
  rewrite Hval. apply to_hex_value. split; [lia | apply enough_fuel; lia].
Qed.

(** X18: The text of a state whose polynomial is not negative and whose
    [initCrc], [xorOut] and [crcValue] fit in [digest_size >= 1] bytes:
    five lines, where the polynomial reads back as [poly] and the three
    values are written with exactly [2*digest_size] hexadecimal digits
    that read back as the attributes. *)
Theorem __str___shows_state (e : Crc.t) :
  1 <= Crc.digest_size e -> 0 <= Crc.poly e ->
  0 <= Crc.initCrc e < 256 ^ Crc.digest_size e ->
  0 <= Crc.xorOut e < 256 ^ Crc.digest_size e ->
  0 <= Crc.crcValue e < 256 ^ Crc.digest_size e ->
  exists P I X V,
    __str__ e
    = ("poly = 0x" ++ P ++ nl
       ++ "reverse = " ++ (if Crc.reverse e then "True" else "False") ++ nl
       ++ "initCrc  = 0x" ++ I ++ nl
       ++ "xorOut   = 0x" ++ X ++ nl
       ++ "crcValue = 0x" ++ V)%string /\
    hex_value P = Some (Crc.poly e) /\
    hex_value I = Some (Crc.initCrc e) /\
    hex_value X = Some (Crc.xorOut e) /\
    hex_value V = Some (Crc.crcValue e) /\
    String.length I = Z.to_nat (2 * Crc.digest_size e) /\
    String.length X = Z.to_nat (2 * Crc.digest_size e) /\
    String.length V = Z.to_nat (2 * Crc.digest_size e).
Proof.
  intros Hds Hpoly Hinit Hxor Hval.
  assert (Hfit : forall v, 0 <= v < 256 ^ Crc.digest_size e ->
            0 <= v < 16 ^ (Crc.digest_size e * 2)).
  { intros v Hv.
    replace (Crc.digest_size e * 2) with (2 * Crc.digest_size e) by lia.
    rewrite Z.pow_mul_r by lia. exact Hv. }
  destruct (format_0NX_spec (Crc.digest_size e * 2) _ ltac:(lia)
              (Hfit _ Hinit)) as [HlenI [_ HvalI]].
  destruct (format_0NX_spec (Crc.digest_size e * 2) _ ltac:(lia)
              (Hfit _ Hxor)) as [HlenX [_ HvalX]].
  destruct (format_0NX_spec (Crc.digest_size e * 2) _ ltac:(lia)
              (Hfit _ Hval)) as [HlenV [_ HvalV]].
  exists (format_0NX 0 (Crc.poly e)).
  exists (format_0NX (Crc.digest_size e * 2) (Crc.initCrc e)).
  exists (format_0NX (Crc.digest_size e * 2) (Crc.xorOut e)).
  exists (format_0NX (Crc.digest_size e * 2) (Crc.crcValue e)).
  replace (2 * Crc.digest_size e) with (Crc.digest_size e * 2) by lia.
  split.
  - unfold __str__, format_bool. cbv zeta. cbn [String.concat].
    rewrite !string_app_assoc. reflexivity.
  - split; [apply format_0NX_value; lia |].
    repeat split; assumption.
Qed.

Lemma __str___shows_state_witness :
  1 <= Crc.digest_size (engine_of 98309 65535 true 0 16) /\
  0 <= Crc.poly (engine_of 98309 65535 true 0 16) /\
  0 <= Crc.initCrc (engine_of 98309 65535 true 0 16)
    < 256 ^ Crc.digest_size (engine_of 98309 65535 true 0 16) /\
  0 <= Crc.xorOut (engine_of 98309 65535 true 0 16)
    < 256 ^ Crc.digest_size (engine_of 98309 65535 true 0 16) /\
  0 <= Crc.crcValue (engine_of 98309 65535 true 0 16)
    < 256 ^ Crc.digest_size (engine_of 98309 65535 true 0 16) /\
  exists P I X V,
    __str__ (engine_of 98309 65535 true 0 16)
    = ("poly = 0x" ++ P ++ nl
       ++ "reverse = "
       ++ (if Crc.reverse (engine_of 98309 65535 true 0 16)
           then "True" else "False") ++ nl
       ++ "initCrc  = 0x" ++ I ++ nl
       ++ "xorOut   = 0x" ++ X ++ nl
       ++ "crcValue = 0x" ++ V)%string /\
    hex_value P = Some (Crc.poly (engine_of 98309 65535 true 0 16)) /\
    hex_value I = Some (Crc.initCrc (engine_of 98309 65535 true 0 16)) /\
    hex_value X = Some (Crc.xorOut (engine_of 98309 65535 true 0 16)) /\
    hex_value V = Some (Crc.crcValue (engine_of 98309 65535 true 0 16)) /\
    String.length I
    = Z.to_nat (2 * Crc.digest_size (engine_of 98309 65535 true 0 16)) /\
    String.length X
    = Z.to_nat (2 * Crc.digest_size (engine_of 98309 65535 true 0 16)) /\
    String.length V
    = Z.to_nat (2 * Crc.digest_size (engine_of 98309 65535 true 0 16)).
Proof.
  assert (H1 : 1 <= Crc.digest_size (engine_of 98309 65535 true 0 16))
    by (vm_compute; discriminate).
  assert (H2 : 0 <= Crc.poly (engine_of 98309 65535 true 0 16))
    by (vm_compute; discriminate).
  assert (H3 : 0 <= Crc.initCrc (engine_of 98309 65535 true 0 16)
               < 256 ^ Crc.digest_size (engine_of 98309 65535 true 0 16))
    by (vm_compute; split; [discriminate | reflexivity]).
  assert (H4 : 0 <= Crc.xorOut (engine_of 98309 65535 true 0 16)
               < 256 ^ Crc.digest_size (engine_of 98309 65535 true 0 16))
    by (vm_compute; split; [discriminate | reflexivity]).
  assert (H5 : 0 <= Crc.crcValue (engine_of 98309 65535 true 0 16)
               < 256 ^ Crc.digest_size (engine_of 98309 65535 true 0 16))
    by (vm_compute; split; [discriminate | reflexivity]).
  split; [exact H1 |]. split; [exact H2 |]. split; [exact H3 |].
  split; [exact H4 |]. split; [exact H5 |].
  exact (__str___shows_state _ H1 H2 H3 H4 H5).
Defined.
